(** * The durable message log of the rover chat server (src/server.js)

    A shallow embedding of the message store of [server.js]: the JSONL
    event log [data/messages.jsonl], the in-memory [messages] map, the
    reverse scan [lookupMessageOwner], the history reconstruction
    [readRecentMessages], the [/messages] endpoint and the
    [delete_message] socket handler.

    Modelling conventions.
    - A stored line is represented by what the readers get from it after
      [data.split(/\r?\n/).filter(Boolean)] and [JSON.parse]: [None] when
      [JSON.parse] throws or yields something that is not an object (both
      readers skip such a line), [Some o] for an object [o].
    - An object is a record of the properties this server writes; an absent
      property ([undefined]) is [None]. String properties hold strings and
      [timestamp] holds an integer, as in every record the server writes
      ([Date.now()]); objects with other property types are outside the
      model.
    - [fs.appendFile] is called with a callback that discards its error
      argument. Its outcome is an explicit boolean of the model; a
      successful append lands before the next operation starts (the
      handlers are run one after the other). *)

From Stdlib Require Import ZArith List Lia Permutation Sorted Ascii String.
From Stdlib Require Import DecimalString DecimalN.
From stdpp Require Import gmap strings list fin_maps relations sorting pretty.

(** ** JSON objects *)

Module Json.

(** A property that is either [null] or a string ([mime], [avatarUrl]). *)
Inductive nullable := JNull | JString (s : string).

Record jsobj := mkObj {
  o_id : option string;
  o_type : option string;
  o_username : option string;
  o_text : option string;
  o_url : option string;
  o_mime : option nullable;
  o_timestamp : option Z;
  o_avatarUrl : option nullable;
  o_by : option string;
}.

#[export] Instance nullable_eq_dec : EqDecision nullable.
Proof. solve_decision. Defined.

#[export] Instance jsobj_eq_dec : EqDecision jsobj.
Proof. solve_decision. Defined.

(** JavaScript truthiness of a string-or-undefined value: [undefined]
    and the empty string are falsy. *)
Definition truthy (v : option string) : bool :=
  match v with
  | Some (String _ _) => true
  | _ => false
  end.

(** [v === s] for a string [s]. *)
Definition strict_eq (v : option string) (s : string) : bool :=
  bool_decide (v = Some s).

(** [v || null]. *)
Definition or_null (v : option string) : nullable :=
  match v with
  | Some (String a s) => JString (String a s)
  | _ => JNull
  end.

End Json.
Export Json.

(** A line of the log after [JSON.parse]. *)
Definition line := option jsobj.

(** What [fs.readFile] hands to its caller: [None] is the error case. *)
Definition read_result := option (list line).

(** ** lookupMessageOwner *)

(** The object returned by [lookupMessageOwner]: [{ owner, deleted }]. *)
Record owner_info := mkInfo { info_owner : option string; info_deleted : bool }.

(** The body of [for (let i = lines.length - 1; i >= 0; i--)], run over
    the lines from the last to the first. *)
Fixpoint scan_back (id : string) (rlines : list line) : owner_info :=
  match rlines with
  | [] => mkInfo None false
  | None :: rest => scan_back id rest
  | Some obj :: rest =>
      if strict_eq (o_type obj) "delete" && strict_eq (o_id obj) id
      then mkInfo None true
      else if strict_eq (o_id obj) id && truthy (o_username obj)
      then mkInfo (o_username obj) false
      else scan_back id rest
  end.

Definition lookupMessageOwner (data : read_result) (id : string) : owner_info :=
  match data with
  | None => mkInfo None false
  | Some lines => scan_back id (rev lines)
  end.

(** ** readRecentMessages *)

Definition maxScan : Z := 5000.

(** [arr.slice(start)] for an integer [start >= 0]. *)
Definition slice_from {A} (start : Z) (l : list A) : list A :=
  drop (Z.to_nat start) l.

Record scan_acc := mkAcc { tombstones : gset string; all : list jsobj }.

(** One iteration of [for (const line of slice)]. *)
Definition scan_line (acc : scan_acc) (l : line) : scan_acc :=
  match l with
  | None => acc
  | Some obj =>
      if strict_eq (o_type obj) "delete" && truthy (o_id obj)
      then mkAcc (match o_id obj with
                  | Some i => {[ i ]} ∪ tombstones acc
                  | None => tombstones acc
                  end) (all acc)
      else if truthy (o_id obj)
      then mkAcc (tombstones acc) (all acc ++ [obj])
      else acc
  end.

(** [tombstones.has(v)]. *)
Definition has (t : gset string) (v : option string) : bool :=
  match v with
  | Some i => bool_decide (i ∈ t)
  | None => false
  end.

(** The comparator [(a,b) => (a.timestamp||0)-(b.timestamp||0)]. *)
Definition ts_or_zero (m : jsobj) : Z := default 0%Z (o_timestamp m).

Definition compare_ts (a b : jsobj) : Z := (ts_or_zero a - ts_or_zero b)%Z.

(** [Array.prototype.sort] is a stable sort; with a consistent comparator
    its result is the stable sorted arrangement, built here by insertion
    from the right. *)
Fixpoint insert_sorted (x : jsobj) (l : list jsobj) : list jsobj :=
  match l with
  | [] => [x]
  | y :: l' =>
      if (compare_ts x y <=? 0)%Z then x :: y :: l' else y :: insert_sorted x l'
  end.

Definition sort (l : list jsobj) : list jsobj := foldr insert_sorted [] l.

(** [filtered]: the loop over the slice, then
    [all.filter(m => !tombstones.has(m.id))]. *)
Definition filtered (slice : list line) : list jsobj :=
  let acc := fold_left scan_line slice (mkAcc ∅ []) in
  List.filter (fun m => negb (has (tombstones acc) (o_id m))) (all acc).

(** The part of [readRecentMessages] that runs on the slice. *)
Definition reconstruct (slice : list line) (limit : Z) : list jsobj :=
  let sorted := sort (filtered slice) in
  slice_from (Z.max 0 (Z.of_nat (length sorted) - limit)) sorted.

Definition scan_start (n : nat) (limit : Z) : Z :=
  Z.max 0 (Z.of_nat n - Z.max (limit * 5) maxScan).

(** [readRecentMessages(limit)], from the callback of [fs.readFile] on.
    The default [limit = 200] is for a call without argument; the one
    call in the file passes the limit. *)
Definition readRecentMessages (data : read_result) (limit : Z) : list jsobj :=
  match data with
  | None => []
  | Some lines =>
      reconstruct (slice_from (scan_start (length lines) limit) lines) limit
  end.

(** ** The /messages endpoint *)

Module Query.

(** [StrWhiteSpaceChar] among the code units below 256: TAB, LF, VT, FF,
    CR, SP and NBSP. A character of a query string stands for one UTF-16
    code unit below 256; strings with other code units are outside the
    model. *)
Definition is_space (a : ascii) : bool :=
  let n := nat_of_ascii a in
  ((9 <=? n) && (n <=? 13)) || (n =? 32) || (n =? 160).

Definition digit (a : ascii) : option Z :=
  let n := nat_of_ascii a in
  if (48 <=? n) && (n <=? 57) then Some (Z.of_nat (n - 48)) else None.

Fixpoint skip_space (s : string) : string :=
  match s with
  | String a r => if is_space a then skip_space r else s
  | EmptyString => s
  end.

(** The longest prefix of decimal digits, read as a number; [None] when
    the prefix is empty. *)
Fixpoint read_digits (s : string) (acc : option Z) : option Z :=
  match s with
  | String a r =>
      match digit a with
      | Some d => read_digits r (Some (10 * default 0 acc + d)%Z)
      | None => acc
      end
  | EmptyString => acc
  end.

(** [parseInt(s, 10)] on a string; [None] is [NaN]. The result is an
    exact integer here, where JavaScript rounds beyond 2^53: the callers
    below clamp it to [1, 1000], which the rounding cannot cross. *)
Definition parseInt (s : string) : option Z :=
  match skip_space s with
  | String "-" r => Z.opp <$> read_digits r None
  | String "+" r => read_digits r None
  | r => read_digits r None
  end.

(** [parseInt(req.query.limit, 10) || 200]: [req.query.limit] is
    [undefined] ([None]) or a string. *)
Definition limit_or_default (q : option string) : Z :=
  match q ≫= parseInt with
  | Some n => if (n =? 0)%Z then 200%Z else n
  | None => 200%Z
  end.

(** [Math.max(1, Math.min(1000, parseInt(req.query.limit, 10) || 200))]. *)
Definition effective_limit (q : option string) : Z :=
  Z.max 1 (Z.min 1000 (limit_or_default q)).

(** The handler of [GET /messages]: the array passed to [res.json]. *)
Definition get_messages (q : option string) (data : read_result) : list jsobj :=
  readRecentMessages data (effective_limit q).

End Query.
Export Query.

(** ** The store: [messages], [messageOrder], the log file, the broadcasts *)

Record entry := mkEntry {
  e_owner : option string;
  e_type : option string;
  e_url : nullable;
}.

Inductive event :=
| EvMessage (payload : jsobj)
| EvMessageDeleted (id : string)
| EvCleared.

Record state := mkState {
  messages : gmap (option string) entry;
  messageOrder : list (option string);
  messagesFile : option (list line);   (* [None]: the file does not exist *)
  emitted : list event;
}.

(** Outcome of the file operations of one handler run. *)
Record io := mkIo { read_ok : bool; append_ok : bool }.

Definition reliable : io := mkIo true true.

Definition readFile (o : io) (file : option (list line)) : read_result :=
  if read_ok o then file else None.

(** [fs.appendFile(messagesFile, JSON.stringify(m) + "\n", () => {})]:
    creates the file when it is missing; on failure nothing is written
    and nobody is told. *)
Definition appendFile (o : io) (m : jsobj) (file : option (list line))
  : option (list line) :=
  if append_ok o then Some (default [] file ++ [Some m]) else file.

Definition rememberMessage (o : io) (m : jsobj) (st : state) : state :=
  mkState
    (<[ o_id m := mkEntry (o_username m) (o_type m) (or_null (o_url m)) ]>
       (messages st))
    (messageOrder st ++ [o_id m])
    (appendFile o m (messagesFile st))
    (emitted st).

(** The payloads built by the ["message"] handler. *)
Definition text_payload (id name msg : string) (now : Z)
    (avatarUrl : option string) : jsobj :=
  mkObj (Some id) (Some "text") (Some name) (Some msg) None None (Some now)
        (Some (or_null avatarUrl)) None.

Definition media_payload (id type name url : string) (mime : nullable)
    (text : string) (now : Z) (avatarUrl : option string) : jsobj :=
  mkObj (Some id) (Some type) (Some name) (Some text) (Some url) (Some mime)
        (Some now) (Some (or_null avatarUrl)) None.

(** The end of the ["message"] handler:
    [rememberMessage(payload); io.emit("message", payload)]. *)
Definition post_message (o : io) (payload : jsobj) (st : state) : state :=
  let st' := rememberMessage o payload st in
  mkState (messages st') (messageOrder st') (messagesFile st')
          (emitted st' ++ [EvMessage payload]).

(** The tombstone [{ type: "delete", id, timestamp: Date.now(), by: me }]. *)
Definition tombstone (id : string) (now : Z) (me : string) : jsobj :=
  mkObj (Some id) (Some "delete") None None None None (Some now) None (Some me).

(** The ["delete_message"] handler. [id] is [None] when the argument is
    not a string; [me] is [socket.data.username || users.get(socket.id) || ""].
    The result pairs the new store with the value passed to [ack]. *)
Definition delete_message (o : io) (now : Z) (id : option string) (me : string)
    (st : state) : state * bool :=
  match id with
  | None => (st, false)
  | Some id =>
      if negb (truthy (Some me)) then (st, false) else
      let rec := messages st !! Some id in
      let owner := rec ≫= e_owner in
      let resolved :=
        if negb (truthy owner) then
          let info := lookupMessageOwner (readFile o (messagesFile st)) id in
          if info_deleted info then None else Some (info_owner info)
        else Some owner in
      match resolved with
      | None => (st, false)
      | Some owner =>
          if negb (truthy owner) || negb (strict_eq owner me) then (st, false)
          else
            (mkState (delete (Some id) (messages st))
                     (messageOrder st)
                     (appendFile o (tombstone id now me) (messagesFile st))
                     (emitted st ++ [EvMessageDeleted id]),
             true)
      end
  end.

(** [POST /admin/clear], when [fs.writeFileSync] succeeds. *)
Definition admin_clear (st : state) : state :=
  mkState ∅ [] (Some []) (emitted st ++ [EvCleared]).

(** A restart of the process: the maps are empty again, the file stays. *)
Definition restart (st : state) : state :=
  mkState ∅ [] (messagesFile st) [].

Definition init : state := mkState ∅ [] None [].

(** ** Requests served one after the other, with a working disk *)

Inductive request :=
| ReqText (id name msg : string) (now : Z) (avatarUrl : option string)
| ReqMedia (id type name url : string) (mime : nullable) (text : string)
           (now : Z) (avatarUrl : option string)
| ReqDelete (now : Z) (id : option string) (me : string)
| ReqRestart
| ReqClear.

Definition handle (r : request) (st : state) : state :=
  match r with
  | ReqText id name msg now av =>
      post_message reliable (text_payload id name msg now av) st
  | ReqMedia id type name url mime text now av =>
      post_message reliable (media_payload id type name url mime text now av) st
  | ReqDelete now id me => (delete_message reliable now id me st).1
  | ReqRestart => restart st
  | ReqClear => admin_clear st
  end.

Definition log_of (st : state) : list line := default [] (messagesFile st).

(** [newId()] returns a non-empty identifier that no record of the log
    carries yet. *)
Definition fresh (id : string) (st : state) : Prop :=
  id ≠ "" ∧ ∀ o, Some o ∈ log_of st → o_id o ≠ Some id.

(** What the ["message"] handler guarantees before it builds a payload:
    a fresh id, a non-empty user name (it falls back to ["Anonymous"]),
    and one of the three media types. *)
Definition admissible (r : request) (st : state) : Prop :=
  match r with
  | ReqText id name _ _ _ => fresh id st ∧ name ≠ ""
  | ReqMedia id type name _ _ _ _ _ =>
      fresh id st ∧ name ≠ "" ∧ type ∈ ["image"; "video"; "audio"]
  | _ => True
  end.

Inductive reachable : state → Prop :=
| reach_init : reachable init
| reach_step st r : reachable st → admissible r st → reachable (handle r st).

(** Normal operation: everything but the administrative reset. *)
Inductive later : state → state → Prop :=
| later_refl st : later st st
| later_step st st' r :
    later st st' → r ≠ ReqClear → admissible r st' → later st (handle r st').

(** ** Strings in the socket and upload handlers *)

(** In the definitions of this part a character stands for one UTF-16
    code unit below 256, so that [length], [slice] and [trim] count and
    cut as JavaScript does; strings with other code units are outside
    the model. *)
Module JsString.

(** The code units below 256 that [trim] removes: TAB, LF, VT, FF, CR,
    SP and NBSP. *)
Definition is_white (a : ascii) : bool :=
  let n := nat_of_ascii a in
  ((9 <=? n) && (n <=? 13)) || (n =? 32) || (n =? 160).

Fixpoint trimStart (s : string) : string :=
  match s with
  | String a r => if is_white a then trimStart r else s
  | EmptyString => s
  end.

Fixpoint trimEnd (s : string) : string :=
  match s with
  | String a r =>
      match trimEnd r with
      | EmptyString => if is_white a then EmptyString else String a EmptyString
      | r' => String a r'
      end
  | EmptyString => s
  end.

Definition trim (s : string) : string := trimEnd (trimStart s).

(** [s.slice(0, n)]. *)
Definition slice0 (n : nat) (s : string) : string := substring 0 n s.

Definition startsWith (p s : string) : bool := String.prefix p s.

Definition endsWith (p s : string) : bool :=
  String.prefix (String.rev p) (String.rev s).

End JsString.
Export JsString.

(** ** Uploads: extFromMime, the multer file filter and file name *)

(** [extFromMime(m)]. [None] is an argument that is not a string;
    [extname] is [path.extname]. *)
Definition extFromMime (extname : string → string) (m : option string) : string :=
  match m with
  | None => ""
  | Some m =>
      if negb (truthy (Some m)) then ""
      else if startsWith "image/" m then
        if endsWith "jpeg" m || endsWith "jpg" m then ".jpg"
        else if endsWith "png" m then ".png"
        else if endsWith "gif" m then ".gif"
        else if endsWith "webp" m then ".webp"
        else ".img"
      else if startsWith "video/" m then
        if endsWith "mp4" m then ".mp4"
        else if endsWith "webm" m then ".webm"
        else if endsWith "ogg" m then ".ogv"
        else ".vid"
      else if startsWith "audio/" m then
        if endsWith "mpeg" m then ".mp3"
        else if endsWith "ogg" m then ".ogg"
        else if endsWith "webm" m then ".webm"
        else if endsWith "wav" m then ".wav"
        else ".aud"
      else extname m
  end.

(** The [fileFilter] of the multer instance:
    [/^image\//.test(m) || /^video\//.test(m) || /^audio\//.test(m)]. *)
Definition fileFilter (mimetype : string) : bool :=
  startsWith "image/" mimetype || startsWith "video/" mimetype ||
  startsWith "audio/" mimetype.

(** [extFromMime(file.mimetype) || path.extname(file.originalname) || ".bin"]. *)
Definition upload_ext (extname : string → string) (mimetype originalname : string)
  : string :=
  let ext := extFromMime extname (Some mimetype) in
  if truthy (Some ext) then ext
  else
    let ext := extname originalname in
    if truthy (Some ext) then ext else ".bin".

(** The [filename] callback: [id] is the string built from [Date.now()]
    and six random bytes. *)
Definition upload_filename (extname : string → string) (id mimetype originalname : string)
  : string :=
  id +:+ upload_ext extname mimetype originalname.

Definition known_exts : list string :=
  [".jpg"; ".png"; ".gif"; ".webp"; ".img"; ".mp4"; ".webm"; ".ogv"; ".vid";
   ".mp3"; ".ogg"; ".wav"; ".aud"].

(** ** Sessions: join, update_avatar and the front of the message handler *)

(** What the handlers read and write of a socket. *)
Record socket := mkSocket {
  socket_id : string;
  data_username : option string;
  data_avatarUrl : option string;
}.

(** The argument of ["join"]: an object (with its [name] and [avatarUrl]
    when they are strings), a string, or anything else. *)
Inductive join_arg :=
| JoinObject (name avatarUrl : option string)
| JoinString (raw : string)
| JoinOther.

(** The name ["join"] settles on. *)
Definition join_name (raw : join_arg) (sid : string) : string :=
  let name :=
    match raw with
    | JoinObject (Some n) _ => trim n
    | JoinObject None _ => ""
    | JoinString r => trim r
    | JoinOther => ""
    end in
  let name := if negb (truthy (Some name)) then "User-" +:+ slice0 5 sid else name in
  if 30 <? String.length name then slice0 30 name else name.

(** The avatar ["join"] settles on; [stored] is [existing.avatarUrl],
    read from the preferences kept under the name. *)
Definition join_avatar (raw : join_arg) (stored : option string) : option string :=
  let avatarUrl :=
    match raw with
    | JoinObject _ (Some u) =>
        let url := trim u in
        if startsWith "/uploads/" url then Some url else None
    | _ => None
    end in
  if negb (truthy avatarUrl) && truthy stored then stored else avatarUrl.

(** ["join"], as far as the socket and the [users] map go. *)
Definition on_join (raw : join_arg) (stored : option string) (sock : socket)
    (users : gmap string string) : socket * gmap string string :=
  let name := join_name raw (socket_id sock) in
  (mkSocket (socket_id sock) (Some name) (join_avatar raw stored),
   <[ socket_id sock := name ]> users).

(** ["update_avatar"]; [None] is an argument that is not a string. *)
Definition update_avatar (url : option string) (sock : socket) : socket :=
  match url with
  | Some u =>
      if startsWith "/uploads/" u
      then mkSocket (socket_id sock) (data_username sock) (Some (trim u))
      else sock
  | None => sock
  end.

(** [socket.data.username || users.get(socket.id) || "Anonymous"]. *)
Definition sender_name (sock : socket) (users : gmap string string) : string :=
  match data_username sock with
  | Some (String a r) => String a r
  | _ =>
      match users !! socket_id sock with
      | Some (String a r) => String a r
      | _ => "Anonymous"
      end
  end.

(** The argument of ["message"]: a string, an object (with its [type],
    [url], [mime] and [text] when they are strings), or anything else. *)
Inductive message_arg :=
| MsgString (data : string)
| MsgObject (type url mime text : option string)
| MsgOther.

Definition media_types : list string := ["image"; "video"; "audio"].

(** The payload the ["message"] handler builds, or [None] where it
    returns early; [id] is the value of [newId()], [now] of [Date.now()]. *)
Definition build_payload (name : string) (avatarUrl : option string)
    (id : string) (now : Z) (data : message_arg) : option jsobj :=
  match data with
  | MsgString d =>
      let msg := slice0 1000 (trim d) in
      if negb (truthy (Some msg)) then None
      else Some (text_payload id name msg now avatarUrl)
  | MsgObject (Some type) url mime text =>
      if bool_decide (type ∈ media_types) then
        let url := match url with Some u => trim u | None => "" end in
        if negb (startsWith "/uploads/" url) then None
        else Some (media_payload id type name url
                     (match mime with Some s => JString s | None => JNull end)
                     (match text with Some t => slice0 300 t | None => "" end)
                     now avatarUrl)
      else None
  | MsgObject None _ _ _ => None
  | MsgOther => None
  end.

(** The ["message"] handler. *)
Definition on_message (o : io) (id : string) (now : Z) (data : message_arg)
    (sock : socket) (users : gmap string string) (st : state) : state :=
  match build_payload (sender_name sock users) (data_avatarUrl sock) id now data with
  | Some payload => post_message o payload st
  | None => st
  end.

(** ** The two kinds of record *)

Definition kinds : list string := ["text"; "image"; "video"; "audio"].

(** A [Create] record as the ["message"] handler writes it. *)
Definition is_create (o : jsobj) : bool :=
  match o_type o with
  | Some k => bool_decide (k ∈ kinds)
  | None => false
  end && truthy (o_id o) && truthy (o_username o).

(** A [Delete] record as the ["delete_message"] handler writes it. *)
Definition is_delete (o : jsobj) : bool :=
  strict_eq (o_type o) "delete" && truthy (o_id o).

(** [created_by log id u]: the log holds a [Create] of [id] by [u]. *)
Definition created_by (log : list line) (id u : string) : Prop :=
  ∃ c, Some c ∈ log ∧ is_create c = true ∧ o_id c = Some id ∧
       o_username c = Some u.

(** [tombstoned log id]: the log holds a [Delete] of [id]. *)
Definition tombstoned (log : list line) (id : string) : Prop :=
  ∃ d, Some d ∈ log ∧ o_type d = Some "delete" ∧ o_id d = Some id.

(** Logs as a working server grows them: a [Create] carries an id that is
    new to the log, a [Delete] names an id that was created and is not
    deleted yet. *)
Inductive log_ok : list line → Prop :=
| log_ok_nil : log_ok []
| log_ok_create l c :
    log_ok l → is_create c = true →
    (∀ o, Some o ∈ l → o_id o ≠ o_id c) →
    log_ok (l ++ [Some c])
| log_ok_delete l d id :
    log_ok l → o_type d = Some "delete" → o_id d = Some id →
    (∃ u, created_by l id u) → ¬ tombstoned l id →
    log_ok (l ++ [Some d]).

(** The invariant tying the [messages] map to the log. *)
Record store_ok (st : state) : Prop := {
  ok_log : log_ok (log_of st);
  ok_none : messages st !! None = None;
  ok_entry : ∀ id e, messages st !! Some id = Some e →
      ∃ u, e_owner e = Some u ∧ created_by (log_of st) id u ∧
           ¬ tombstoned (log_of st) id;
}.

(** ** The scanned suffix *)

(** The bounded suffix: the last [max(limit * 5, 5000)] records. *)
Definition scan_bound (limit : Z) : nat := Z.to_nat (Z.max (limit * 5) 5000).

Definition last_n {A} (n : nat) (l : list A) : list A := drop (length l - n) l.

(** ** Records read off their fields *)

(** The statements about the delete handler, the ownership lookup and
    the reconstruction speak of the records of a log through their
    fields alone. *)

(** A Delete record of [id]. *)
Definition Delete_of (id : string) (o : jsobj) : Prop :=
  o_type o = Some "delete" ∧ o_id o = Some id.




(** A record that settles the ownership of [id]: it carries the id and
    is a Delete or has a non-empty username. *)
Definition decides (id : string) (o : jsobj) : Prop :=
  o_id o = Some id ∧
  (o_type o = Some "delete" ∨ ∃ u, o_username o = Some u ∧ u ≠ "").

(** A record with a non-empty id. *)
Definition carries_id (o : jsobj) : Prop := ∃ i, o_id o = Some i ∧ i ≠ "".

Definition Delete_record (o : jsobj) : Prop :=
  o_type o = Some "delete" ∧ carries_id o.

Definition Create_record (o : jsobj) : Prop :=
  o_type o ≠ Some "delete" ∧ carries_id o.

(** The line [l] is a Delete record naming the id of [o]. *)
Definition names_id_of (o : jsobj) (l : line) : Prop :=
  match l with
  | Some d => Delete_record d ∧ o_id d = o_id o
  | None => False
  end.

(** A survivor of a suffix: a Create record whose id no Delete record of
    the suffix names. *)
Definition survivor (suffix : list line) (o : jsobj) : Prop :=
  Create_record o ∧ ¬ Exists (names_id_of o) suffix.

#[export] Instance carries_id_dec o : Decision (carries_id o).
Proof.
  unfold carries_id. destruct (o_id o) as [[|a s]|].
  - right. by intros (i & [= <-] & ?).
  - left. by eexists.
  - right. by intros (i & ? & ?).
Defined.

#[export] Instance names_id_of_dec o l : Decision (names_id_of o l).
Proof. destruct l; unfold names_id_of, Delete_record; apply _. Defined.

#[export] Instance survivor_dec suffix o : Decision (survivor suffix o).
Proof. unfold survivor, Create_record. apply _. Defined.

(** The records of a suffix, in log order, and its survivors. *)
Definition records (suffix : list line) : list jsobj := omap (λ l : line, l) suffix.

Definition survivors (suffix : list line) : list jsobj :=
  filter (survivor suffix) (records suffix).

(** ** Notions used in the statements *)

(** Ascending and strictly ascending timestamps, read as the comparator
    reads them. *)
Definition le_ts (a b : jsobj) : Prop := (ts_or_zero a ≤ ts_or_zero b)%Z.
Definition lt_ts (a b : jsobj) : Prop := (ts_or_zero a < ts_or_zero b)%Z.

(** The id a line adds to [tombstones], if any. *)
Definition tomb_id (l : line) : option string :=
  match l with
  | Some o => if is_delete o then o_id o else None
  | None => None
  end.

(** The object a line adds to [all], if any. *)
Definition keep (l : line) : option jsobj :=
  match l with
  | Some o => if is_delete o then None else if truthy (o_id o) then Some o else None
  | None => None
  end.

Definition tomb_set (slice : list line) : gset string :=
  list_to_set (omap tomb_id slice).

(** The store after a successful delete of [id] by [me] at time [now]. *)
Definition deleted_state (st : state) (id : string) (now : Z) (me : string) : state :=
  mkState (delete (Some id) (messages st)) (messageOrder st)
          (Some (log_of st ++ [Some (tombstone id now me)]))
          (emitted st ++ [EvMessageDeleted id]).

(** [me] created [id] and [id] has no tombstone yet. *)
Definition may_delete (st : state) (id me : string) : Prop :=
  created_by (log_of st) id me ∧ ¬ tombstoned (log_of st) id.

(** ** Example stores and logs *)

(** The three messages of Scenario D, in the order they were appended. *)
Definition scenario_d : list jsobj :=
  [ text_payload "100-aa" "alice" "first" 100 None;
    text_payload "300-bb" "alice" "third" 300 None;
    text_payload "200-cc" "alice" "second" 200 None ].


(** A record of alice's message id with an empty username. *)
Definition nameless_create : jsobj := text_payload "1-aa" "" "hi" 2 None.

(** A store in which alice has posted one message. *)
Definition alice_posted : state :=
  post_message reliable (text_payload "1-aa" "alice" "hi" 1 None) init.

(** A log of exactly 5000 lines: two visible messages, 2498 messages that
    were posted and deleted, and one more message with its tombstone. *)
Definition short_lived (n : nat) : list line :=
  [ Some (text_payload ("5-" +:+ pretty n) "bob" "typo" 5 None);
    Some (tombstone ("5-" +:+ pretty n) 6 "bob") ].

Definition full_window_log : list line :=
  [ Some (text_payload "1-aa" "alice" "hi" 1 None);
    Some (text_payload "2-cc" "carol" "hello" 2 None) ]
  ++ mjoin (short_lived <$> seq 0 2498)
  ++ [ Some (text_payload "7-xx" "alice" "oops" 7 None);
       Some (tombstone "7-xx" 8 "alice") ].

(** ** Identifiers and upload urls *)

(** [`${Date.now()}`]: the decimal digits of a non-negative integer. *)
Definition decimal (n : N) : string :=
  DecimalString.NilEmpty.string_of_uint (N.to_uint n).

(** [newId()]: [`${Date.now()}-${crypto.randomBytes(4).toString("hex")}`],
    with the time and the hex string as arguments. The multer [filename]
    callback builds its id the same way from six bytes. *)
Definition newId (now : N) (hex : string) : string :=
  decimal now +:+ "-" +:+ hex.

(** The [url] of the answer of [POST /upload]. *)
Definition upload_url (filename : string) : string := "/uploads/" +:+ filename.

(** ** Notions used in the further properties *)

(** A line both readers pass over: it does not parse, or it is an object
    without a truthy id. *)
Definition line_ignored (x : line) : bool :=
  match x with
  | Some o => negb (truthy (o_id o))
  | None => true
  end.

(** The entry [rememberMessage] files for a payload. *)
Definition entry_of (m : jsobj) : entry :=
  mkEntry (o_username m) (o_type m) (or_null (o_url m)).

(** The Create lines and the Delete lines of a log that carry [id]. *)
Definition creates_of (id : string) (log : list line) : list line :=
  List.filter
    (λ x, match x with
          | Some o => is_create o && strict_eq (o_id o) id
          | None => false
          end) log.

Definition deletes_of (id : string) (log : list line) : list line :=
  List.filter
    (λ x, match x with
          | Some o => strict_eq (o_type o) "delete" && strict_eq (o_id o) id
          | None => false
          end) log.

(** Every entry of the map comes from a Create line of the log. *)
Definition mirrors (st : state) : Prop :=
  ∀ id e, messages st !! Some id = Some e →
    ∃ c, Some c ∈ log_of st ∧ is_create c = true ∧ o_id c = Some id ∧
         e = entry_of c.

(** A string of white space only (the empty string included). *)
Fixpoint blank (s : string) : bool :=
  match s with
  | String a r => is_white a && blank r
  | EmptyString => true
  end.

(** A string without white space. *)
Fixpoint blank_free (s : string) : bool :=
  match s with
  | String a r => negb (is_white a) && blank_free r
  | EmptyString => true
  end.

(** * Properties *)

(** ** Reading a file that cannot be read *)

(** C10: when the log file cannot be read (it is missing, or the read
    fails), [readRecentMessages] resolves to the empty array for every
    limit, and [GET /messages] answers with the empty array. *)
Theorem unreadable_log_gives_empty_history :
  (∀ limit, readRecentMessages None limit = []) ∧
  (∀ q, get_messages q None = []) ∧
  (∀ o limit, readRecentMessages (readFile o None) limit = []) ∧
  (∀ file limit q,
     readRecentMessages (readFile (mkIo false true) file) limit = [] ∧
     get_messages q (readFile (mkIo false true) file) = []).
Proof.
  repeat split; try done.
  intros o limit. unfold readFile. by destruct (read_ok o).
Qed.

(** ** The limit of the history endpoint *)

Lemma effective_limit_range q : (1 ≤ effective_limit q ≤ 1000)%Z.
Proof. unfold effective_limit. lia. Qed.

Lemma effective_limit_absent : effective_limit None = 200%Z.
Proof. reflexivity. Qed.

Lemma effective_limit_nan s :
  parseInt s = None → effective_limit (Some s) = 200%Z.
Proof. intros H. unfold effective_limit, limit_or_default. simpl. by rewrite H. Qed.

Lemma effective_limit_nonzero s n :
  parseInt s = Some n → n ≠ 0%Z →
  effective_limit (Some s) = Z.max 1 (Z.min 1000 n).
Proof.
  intros H Hn. unfold effective_limit, limit_or_default. simpl. rewrite H.
  destruct (Z.eqb_spec n 0); [done | reflexivity].
Qed.

(** C9: the query [limit=0] is parsed to the integer 0, which [|| 200]
    replaces by the default: the effective limit is 200, where clamping
    the supplied integer into [1, 1000] gives 1. *)
Theorem limit_zero_takes_default :
  parseInt "0" = Some 0%Z ∧
  effective_limit (Some "0") = 200%Z ∧
  Z.max 1 (Z.min 1000 0) = 1%Z.
Proof. repeat split. Qed.

(** ** The reverse scan *)

Lemma scan_back_skip id (rl1 rl2 : list line) :
  (∀ o, Some o ∈ rl1 → o_id o ≠ Some id) →
  scan_back id (rl1 ++ rl2) = scan_back id rl2.
Proof.
  induction rl1 as [|[o|] rl1 IH]; intros Hno; simpl.
  - done.
  - assert (Hne : o_id o ≠ Some id) by (apply Hno; left).
    unfold strict_eq at 2 3. rewrite !bool_decide_eq_false_2 by done.
    rewrite andb_false_r. simpl. apply IH. intros o' Ho'. apply Hno. by right.
  - apply IH. intros o' Ho'. apply Hno. by right.
Qed.

Lemma is_create_not_delete o : is_create o = true → o_type o ≠ Some "delete".
Proof.
  unfold is_create. intros H Ht. rewrite Ht in H.
  rewrite bool_decide_eq_false_2 in H; [done|].
  unfold kinds. intros Hk.
  repeat (apply elem_of_cons in Hk as [Hk|Hk]; [discriminate|]).
  by apply elem_of_nil in Hk.
Qed.

Lemma is_create_truthy_username o :
  is_create o = true → truthy (o_username o) = true.
Proof. unfold is_create. intros H. by apply andb_prop in H as [_ ?]. Qed.

Lemma is_create_truthy_id o : is_create o = true → truthy (o_id o) = true.
Proof.
  unfold is_create. intros H.
  apply andb_prop in H as [H _]. by apply andb_prop in H as [_ ?].
Qed.

Lemma is_delete_type o : is_delete o = true → o_type o = Some "delete".
Proof.
  unfold is_delete, strict_eq. intros H.
  apply andb_prop in H as [H _]. by apply bool_decide_eq_true in H.
Qed.

Lemma scan_back_delete id o rest :
  o_type o = Some "delete" → o_id o = Some id →
  scan_back id (Some o :: rest) = mkInfo None true.
Proof.
  intros Ht Hi. simpl. unfold strict_eq.
  by rewrite !bool_decide_eq_true_2.
Qed.

Lemma scan_back_create id o rest :
  is_create o = true → o_id o = Some id →
  scan_back id (Some o :: rest) = mkInfo (o_username o) false.
Proof.
  intros Hc Hi. simpl. unfold strict_eq.
  rewrite (bool_decide_eq_false_2 (o_type o = Some "delete"))
    by by apply is_create_not_delete.
  rewrite bool_decide_eq_true_2 by done.
  by rewrite is_create_truthy_username.
Qed.

(** ** The sort *)

Lemma insert_sorted_perm x l : Permutation (insert_sorted x l) (x :: l).
Proof.
  induction l as [|y l IH]; simpl; [done|].
  destruct (compare_ts x y <=? 0)%Z; [done|].
  rewrite IH. apply perm_swap.
Qed.

Lemma sort_perm l : Permutation (sort l) l.
Proof.
  induction l as [|x l IH]; simpl; [done|].
  rewrite insert_sorted_perm. by constructor.
Qed.

Lemma sort_length l : length (sort l) = length l.
Proof. apply Permutation_length, sort_perm. Qed.

Lemma insert_sorted_strongly x l :
  StronglySorted le_ts l → StronglySorted le_ts (insert_sorted x l).
Proof.
  induction 1 as [|y l Hl IH Hy]; simpl.
  - repeat constructor.
  - destruct (Z.leb_spec (compare_ts x y) 0) as [Hle|Hgt].
    + constructor; [by constructor|].
      unfold compare_ts in Hle. constructor; [unfold le_ts; lia|].
      eapply Forall_impl; [exact Hy|]. unfold le_ts. intros; simpl in *. lia.
    + constructor; [done|].
      unfold compare_ts in Hgt.
      eapply Permutation_Forall; [symmetry; apply insert_sorted_perm|].
      constructor; [unfold le_ts; lia | done].
Qed.

Lemma sort_sorted l : StronglySorted le_ts (sort l).
Proof.
  induction l as [|x l IH]; simpl; [constructor|].
  by apply insert_sorted_strongly.
Qed.

(** The sort is stable: messages with the same timestamp keep the order
    they had. Together with [sort_perm] and [sort_sorted] this fixes the
    result. *)
Lemma insert_sorted_stable k x l :
  List.filter (λ o, ts_or_zero o =? k)%Z (insert_sorted x l) =
  List.filter (λ o, ts_or_zero o =? k)%Z (x :: l).
Proof.
  induction l as [|y l IH]; [done|]. cbn [insert_sorted].
  unfold compare_ts.
  destruct (Z.leb_spec (ts_or_zero x - ts_or_zero y) 0) as [Hle|Hgt]; [done|].
  cbn [List.filter] in *. rewrite IH.
  destruct (Z.eqb_spec (ts_or_zero y) k), (Z.eqb_spec (ts_or_zero x) k);
    try done. lia.
Qed.

Lemma sort_stable k l :
  List.filter (λ o, ts_or_zero o =? k)%Z (sort l) =
  List.filter (λ o, ts_or_zero o =? k)%Z l.
Proof.
  induction l as [|x l IH]; [done|]. cbn [sort foldr].
  fold (sort l). rewrite insert_sorted_stable. cbn [List.filter].
  by rewrite IH.
Qed.






(** ** Slices *)

Lemma slice_from_last_n {A} (l : list A) (limit : Z) :
  slice_from (Z.max 0 (Z.of_nat (length l) - limit)) l =
  last_n (Z.to_nat limit) l.
Proof.
  unfold slice_from, last_n.
  destruct (Z.le_gt_cases 0 limit) as [Hle|Hlt].
  - f_equal. lia.
  - rewrite !drop_ge; [done| |]; lia.
Qed.

Lemma scan_start_bound n limit :
  Z.to_nat (scan_start n limit) = n - scan_bound limit.
Proof. unfold scan_start, scan_bound, maxScan. lia. Qed.


Lemma last_n_length {A} n (l : list A) : length (last_n n l) = min n (length l).
Proof. unfold last_n. rewrite length_drop. lia. Qed.

Lemma last_n_all {A} n (l : list A) : length l ≤ n → last_n n l = l.
Proof. intros H. unfold last_n. by replace (length l - n) with 0 by lia. Qed.

Lemma last_n_app {A} n (l1 l2 : list A) :
  length l2 = n → last_n n (l1 ++ l2) = l2.
Proof.
  intros H. unfold last_n. rewrite length_app.
  replace (length l1 + length l2 - n) with (length l1) by lia.
  by rewrite drop_app_length.
Qed.

Lemma last_n_last_n {A} n k (l : list A) :
  n ≤ k → last_n n (last_n k l) = last_n n l.
Proof.
  intros H. unfold last_n. rewrite length_drop, drop_drop. f_equal. lia.
Qed.


Lemma readRecentMessages_unfold lines limit :
  readRecentMessages (Some lines) limit =
  last_n (Z.to_nat limit) (sort (filtered (last_n (scan_bound limit) lines))).
Proof.
  unfold readRecentMessages, reconstruct.
  rewrite slice_from_last_n. unfold slice_from at 1.
  by rewrite scan_start_bound.
Qed.

(** ** The loop of [readRecentMessages], line by line *)

Lemma scan_line_tombstones acc l :
  tombstones (scan_line acc l) =
  match tomb_id l with Some i => {[ i ]} ∪ tombstones acc | None => tombstones acc end.
Proof.
  destruct l as [o|]; simpl; [|done]. unfold is_delete.
  destruct (strict_eq (o_type o) "delete" && truthy (o_id o)) eqn:E; simpl.
  - by destruct (o_id o).
  - by destruct (truthy (o_id o)).
Qed.

Lemma scan_line_all acc l :
  all (scan_line acc l) =
  match keep l with Some o => all acc ++ [o] | None => all acc end.
Proof.
  destruct l as [o|]; simpl; [|done]. unfold is_delete.
  destruct (strict_eq (o_type o) "delete" && truthy (o_id o)); simpl; [done|].
  by destruct (truthy (o_id o)).
Qed.

Lemma scan_fold_tombstones slice acc :
  tombstones (fold_left scan_line slice acc) = tombstones acc ∪ tomb_set slice.
Proof.
  revert acc. induction slice as [|l slice IH]; intros acc; simpl.
  - unfold tomb_set. simpl. by rewrite (right_id_L ∅ (∪)).
  - rewrite IH, scan_line_tombstones. unfold tomb_set. simpl.
    destruct (tomb_id l) as [i|]; simpl; [|done].
    by rewrite (comm_L (∪) {[ i ]}), <- (assoc_L (∪)).
Qed.

Lemma scan_fold_all slice acc :
  all (fold_left scan_line slice acc) = all acc ++ omap keep slice.
Proof.
  revert acc. induction slice as [|l slice IH]; intros acc; simpl.
  - by rewrite app_nil_r.
  - rewrite IH, scan_line_all.
    destruct (keep l); simpl; [by rewrite <- app_assoc | done].
Qed.

Lemma filtered_eq slice :
  filtered slice =
  List.filter (λ m, negb (has (tomb_set slice) (o_id m))) (omap keep slice).
Proof.
  unfold filtered. rewrite scan_fold_tombstones, scan_fold_all. simpl.
  by rewrite (left_id_L ∅ (∪)).
Qed.

Lemma elem_of_tomb_set (slice : list line) i :
  i ∈ tomb_set slice ↔ ∃ d, Some d ∈ slice ∧ is_delete d = true ∧ o_id d = Some i.
Proof.
  unfold tomb_set. rewrite elem_of_list_to_set, list_elem_of_omap. split.
  - intros ([d|] & Hin & Hd); simpl in Hd; [|done].
    destruct (is_delete d) eqn:E; [|done]. eauto.
  - intros (d & Hin & Hd & Hi). exists (Some d). split; [done|].
    simpl. by rewrite Hd.
Qed.

Lemma elem_of_kept (slice : list line) m :
  m ∈ omap keep slice ↔
  Some m ∈ slice ∧ is_delete m = false ∧ truthy (o_id m) = true.
Proof.
  rewrite list_elem_of_omap. split.
  - intros ([o|] & Hin & Ho); simpl in Ho; [|done].
    destruct (is_delete o) eqn:E; [done|].
    destruct (truthy (o_id o)) eqn:E'; [|done].
    by simplify_eq.
  - intros (Hin & Hd & Ht). exists (Some m). split; [done|].
    simpl. by rewrite Hd, Ht.
Qed.

Lemma elem_of_filtered (slice : list line) m :
  m ∈ filtered slice ↔
  Some m ∈ slice ∧ is_delete m = false ∧ truthy (o_id m) = true ∧
  has (tomb_set slice) (o_id m) = false.
Proof.
  rewrite filtered_eq, list_elem_of_In, filter_In, <- list_elem_of_In.
  rewrite elem_of_kept, negb_true_iff. tauto.
Qed.

Lemma elem_of_recent (lines : list line) limit m :
  m ∈ readRecentMessages (Some lines) limit →
  m ∈ filtered (last_n (scan_bound limit) lines).
Proof.
  rewrite readRecentMessages_unfold. unfold last_n at 1. intros H.
  apply (subseteq_drop _ _ m) in H. by rewrite sort_perm in H.
Qed.

(** ** Chronological order *)





#[local] Instance lt_ts_trans : Transitive lt_ts.
Proof. unfold lt_ts. intros x y z. lia. Qed.



Lemma last_n_strongly_sorted {A} (R : relation A) n l :
  StronglySorted R l → StronglySorted R (last_n n l).
Proof.
  intros H. unfold last_n. rewrite <- (take_drop (length l - n) l) in H.
  by apply StronglySorted_app_1_r in H.
Qed.



(** ** Appending a Create and reading it back *)


Lemma is_create_is_delete m : is_create m = true → is_delete m = false.
Proof.
  intros Hc. destruct (is_delete m) eqn:E; [|done].
  apply is_delete_type in E. by apply is_create_not_delete in Hc.
Qed.


Lemma not_tombstoned_has (w : list line) m :
  (∀ d, Some d ∈ w → is_delete d = true → o_id d ≠ o_id m) →
  has (tomb_set w) (o_id m) = false.
Proof.
  intros H. unfold has. destruct (o_id m) as [i|] eqn:Ei; [|done].
  apply bool_decide_eq_false_2. rewrite elem_of_tomb_set.
  intros (d & Hin & Hd & Hi). by apply (H d).
Qed.




(** ** Logs grown by a working server *)

Lemma tombstoned_snoc (l : list line) o id :
  tombstoned (l ++ [Some o]) id ↔
  tombstoned l id ∨ (o_type o = Some "delete" ∧ o_id o = Some id).
Proof.
  unfold tombstoned. split.
  - intros (d & Hin & Ht & Hi). apply elem_of_app in Hin as [Hin|Hin].
    + left. eauto.
    + apply list_elem_of_singleton in Hin. simplify_eq. by right.
  - intros [(d & Hin & Ht & Hi)|[Ht Hi]].
    + exists d. split; [|done]. apply elem_of_app. by left.
    + exists o. split; [|done]. apply elem_of_app. right. by left.
Qed.

Lemma created_by_snoc (l : list line) o id u :
  created_by (l ++ [Some o]) id u ↔
  created_by l id u ∨
  (is_create o = true ∧ o_id o = Some id ∧ o_username o = Some u).
Proof.
  unfold created_by. split.
  - intros (c & Hin & Hc). apply elem_of_app in Hin as [Hin|Hin].
    + left. eauto.
    + apply list_elem_of_singleton in Hin. simplify_eq. by right.
  - intros [(c & Hin & Hc)|Hc].
    + exists c. split; [|done]. apply elem_of_app. by left.
    + exists o. split; [|done]. apply elem_of_app. right. by left.
Qed.

Lemma created_by_id_in (l : list line) id u :
  created_by l id u → ∃ o, Some o ∈ l ∧ o_id o = Some id.
Proof. intros (c & Hin & _ & Hi & _). eauto. Qed.

Lemma tombstoned_id_in (l : list line) id :
  tombstoned l id → ∃ o, Some o ∈ l ∧ o_id o = Some id.
Proof. intros (d & Hin & _ & Hi). eauto. Qed.

Lemma created_by_nonempty (l : list line) id u : created_by l id u → u ≠ "".
Proof.
  intros (c & _ & Hc & _ & Hu) ->.
  apply is_create_truthy_username in Hc. by rewrite Hu in Hc.
Qed.

Lemma scan_back_other id o rest :
  o_id o ≠ Some id → scan_back id (Some o :: rest) = scan_back id rest.
Proof.
  intros Hne. apply (scan_back_skip id [Some o] rest).
  intros o' Ho'. apply list_elem_of_singleton in Ho'. by simplify_eq.
Qed.

(** A Create of an id is unique in such a log. *)
Lemma log_ok_creator_unique l id u u' :
  log_ok l → created_by l id u → created_by l id u' → u = u'.
Proof.
  induction 1 as [|l c Hl IH Hc Hfresh|l d i Hl IH Ht Hi Hcr Hnt]; intros H1 H2.
  - destruct H1 as (c & Hin & _). by apply elem_of_nil in Hin.
  - apply created_by_snoc in H1, H2.
    destruct H1 as [H1|(_ & Hi1 & Hu1)], H2 as [H2|(_ & Hi2 & Hu2)].
    + by apply IH.
    + apply created_by_id_in in H1 as (o & Hin & Ho).
      exfalso. apply (Hfresh o Hin). congruence.
    + apply created_by_id_in in H2 as (o & Hin & Ho).
      exfalso. apply (Hfresh o Hin). congruence.
    + congruence.
  - apply created_by_snoc in H1, H2.
    destruct H1 as [H1|(Hc1 & _)], H2 as [H2|(Hc2 & _)].
    + by apply IH.
    + by apply is_create_not_delete in Hc2.
    + by apply is_create_not_delete in Hc1.
    + by apply is_create_not_delete in Hc1.
Qed.

(** What the reverse scan finds in such a log. *)
Lemma log_ok_scan l id :
  log_ok l →
  if info_deleted (scan_back id (rev l))
  then tombstoned l id ∧ info_owner (scan_back id (rev l)) = None
  else ¬ tombstoned l id ∧
       match info_owner (scan_back id (rev l)) with
       | Some u => created_by l id u
       | None => ∀ u, ¬ created_by l id u
       end.
Proof.
  induction 1 as [|l c Hl IH Hc Hfresh|l d i Hl IH Ht Hi Hcr Hnt].
  - simpl. split.
    + intros (d & Hin & _). by apply elem_of_nil in Hin.
    + intros u (c & Hin & _). by apply elem_of_nil in Hin.
  - rewrite rev_app_distr. simpl rev. simpl app.
    destruct (decide (o_id c = Some id)) as [Hid|Hid].
    + rewrite scan_back_create by done. simpl.
      assert (Hnt : ¬ tombstoned (l ++ [Some c]) id).
      { rewrite tombstoned_snoc. intros [Ht|[Ht _]].
        - apply tombstoned_id_in in Ht as (o & Hin & Ho).
          apply (Hfresh o Hin). congruence.
        - by apply is_create_not_delete in Hc. }
      split; [done|].
      destruct (o_username c) as [u|] eqn:Eu.
      * apply created_by_snoc. by right.
      * apply is_create_truthy_username in Hc. by rewrite Eu in Hc.
    + rewrite scan_back_other by done.
      destruct (info_deleted (scan_back id (rev l))).
      * destruct IH as [IH1 IH2]. split; [|done].
        apply tombstoned_snoc. by left.
      * destruct IH as [IH1 IH2]. split.
        -- rewrite tombstoned_snoc. intros [?|[_ ?]]; done.
        -- destruct (info_owner (scan_back id (rev l))) as [u|].
           ++ apply created_by_snoc. by left.
           ++ intros u. rewrite created_by_snoc.
              intros [?|(_ & ? & _)]; [by apply (IH2 u) | done].
  - rewrite rev_app_distr. simpl rev. simpl app.
    destruct (decide (i = id)) as [->|Hid].
    + rewrite scan_back_delete by done. simpl. split; [|done].
      apply tombstoned_snoc. by right.
    + rewrite scan_back_other by congruence.
      destruct (info_deleted (scan_back id (rev l))).
      * destruct IH as [IH1 IH2]. split; [|done].
        apply tombstoned_snoc. by left.
      * destruct IH as [IH1 IH2]. split.
        -- rewrite tombstoned_snoc. intros [?|[_ ?]]; [done | congruence].
        -- destruct (info_owner (scan_back id (rev l))) as [u|].
           ++ apply created_by_snoc. by left.
           ++ intros u. rewrite created_by_snoc.
              intros [?|(_ & ? & _)]; [by apply (IH2 u) | congruence].
Qed.

(** ** The delete handler on a consistent store *)

#[local] Arguments truthy : simpl never.

Lemma delete_message_spec st now id me :
  store_ok st →
  (may_delete st id me ∧
   delete_message reliable now (Some id) me st = (deleted_state st id now me, true)) ∨
  (¬ may_delete st id me ∧
   delete_message reliable now (Some id) me st = (st, false)).
Proof.
  intros [Hlog Hnone Hentry]. unfold may_delete, delete_message.
  destruct me as [|a me'] eqn:Eme.
  { right. split; [|done]. intros [Hc _]. by apply created_by_nonempty in Hc. }
  rewrite <- Eme. assert (Htm : truthy (Some me) = true) by by rewrite Eme.
  rewrite Htm. simpl negb. cbv iota.
  destruct (messages st !! Some id) as [e|] eqn:Ee; simpl.
  - destruct (Hentry id e Ee) as (u & Hu & Hc & Hnt). rewrite Hu.
    assert (Htu : truthy (Some u) = true).
    { apply created_by_nonempty in Hc. by destruct u. }
    rewrite Htu. simpl. rewrite Htu. simpl. unfold strict_eq.
    destruct (decide (u = me)) as [->|Hne].
    + rewrite bool_decide_eq_true_2 by done. by left.
    + rewrite bool_decide_eq_false_2 by congruence. right. split; [|done].
      intros [Hc' _]. destruct Hne.
      by apply (log_ok_creator_unique (log_of st) id).
  - unfold readFile. simpl.
    pose proof (log_ok_scan (log_of st) id Hlog) as Hscan.
    assert (Hlook : lookupMessageOwner (messagesFile st) id =
                    scan_back id (rev (log_of st))).
    { unfold log_of. by destruct (messagesFile st). }
    rewrite Hlook.
    destruct (scan_back id (rev (log_of st))) as [o d]. simpl in *.
    destruct d.
    + destruct Hscan as [Ht _]. right. split; [|done]. by intros [_ ?].
    + destruct Hscan as [Hnt Ho]. destruct o as [u|].
      * assert (Htu : truthy (Some u) = true).
        { apply created_by_nonempty in Ho. by destruct u. }
        rewrite Htu. simpl. unfold strict_eq.
        destruct (decide (u = me)) as [->|Hne].
        -- rewrite bool_decide_eq_true_2 by done. by left.
        -- rewrite bool_decide_eq_false_2 by congruence. right. split; [|done].
           intros [Hc' _]. destruct Hne.
           by apply (log_ok_creator_unique (log_of st) id).
      * right. split; [|done]. intros [Hc _]. by destruct (Ho me).
Qed.

(** When the map has no entry for the id, the handler decides on what
    [lookupMessageOwner] reports, whatever the state of the store. *)
Lemma index_miss_consults_log o now id me st :
  messages st !! Some id = None → me ≠ "" →
  let info := lookupMessageOwner (readFile o (messagesFile st)) id in
  (delete_message o now (Some id) me st).2 =
    negb (info_deleted info) && strict_eq (info_owner info) me.
Proof.
  intros Hmiss Hme. unfold delete_message. rewrite Hmiss.
  assert (truthy (Some me) = true) as -> by by destruct me.
  simpl.
  destruct (lookupMessageOwner (readFile o (messagesFile st)) id) as [ow d].
  simpl. destruct d; [done|]. simpl. unfold strict_eq.
  destruct (decide (ow = Some me)) as [->|Hne].
  - rewrite bool_decide_eq_true_2 by done.
    assert (truthy (Some me) = true) as -> by by destruct me. done.
  - rewrite bool_decide_eq_false_2 by done. by rewrite orb_true_r.
Qed.

(** ** The invariant holds in every reachable store *)

Lemma store_ok_init : store_ok init.
Proof.
  split; simpl.
  - constructor.
  - done.
  - intros id e H. by rewrite lookup_empty in H.
Qed.

Lemma store_ok_no_maps order file events :
  log_ok (default [] file) → store_ok (mkState ∅ order file events).
Proof.
  intros H. split; simpl; [done|done|].
  intros id e He. by rewrite lookup_empty in He.
Qed.

Lemma log_of_post_message m st :
  log_of (post_message reliable m st) = log_of st ++ [Some m].
Proof. done. Qed.

Lemma store_ok_post m id name st :
  store_ok st → is_create m = true →
  o_id m = Some id → o_username m = Some name → fresh id st →
  store_ok (post_message reliable m st).
Proof.
  intros [Hlog Hnone Hentry] Hc Hid Hname [_ Hfresh].
  assert (Hnt : ∀ i, tombstoned (log_of st ++ [Some m]) i → tombstoned (log_of st) i).
  { intros i. rewrite tombstoned_snoc. intros [?|[Ht _]]; [done|].
    by apply is_create_not_delete in Hc. }
  split.
  - rewrite log_of_post_message. apply log_ok_create; [done|done|].
    intros o Ho. rewrite Hid. by apply Hfresh.
  - simpl. rewrite Hid. by rewrite lookup_insert_ne.
  - intros i e. rewrite log_of_post_message. simpl. rewrite Hid.
    destruct (decide (i = id)) as [->|Hne].
    + rewrite lookup_insert_eq. intros [= <-]. simpl. exists name.
      split; [done|]. split.
      * apply created_by_snoc. by right.
      * intros Ht. apply Hnt, tombstoned_id_in in Ht as (o & Hin & Ho).
        by apply (Hfresh o Hin).
    + rewrite lookup_insert_ne by congruence. intros He.
      destruct (Hentry i e He) as (u & Hu & Hcr & Hn). exists u.
      split; [done|]. split; [|by intros ?%Hnt].
      apply created_by_snoc. by left.
Qed.

Lemma store_ok_deleted st id now me :
  store_ok st → may_delete st id me → store_ok (deleted_state st id now me).
Proof.
  intros [Hlog Hnone Hentry] [Hc Hnt].
  split;
    change (log_of (deleted_state st id now me))
      with (log_of st ++ [Some (tombstone id now me)]).
  - eapply log_ok_delete; eauto.
  - simpl. by rewrite lookup_delete_ne.
  - intros i e. simpl. destruct (decide (i = id)) as [->|Hne].
    + by rewrite lookup_delete_eq.
    + rewrite lookup_delete_ne by congruence. intros He.
      destruct (Hentry i e He) as (u & Hu & Hcr & Hn). exists u.
      split; [done|]. split.
      * apply created_by_snoc. by left.
      * rewrite tombstoned_snoc. intros [?|[_ ?]]; [done|]. simpl in *. congruence.
Qed.

Lemma store_ok_delete st now id me :
  store_ok st → store_ok (delete_message reliable now id me st).1.
Proof.
  intros Hok. destruct id as [id|]; [|done].
  destruct (delete_message_spec st now id me Hok) as [[Hm ->]|[_ ->]]; [|done].
  by apply store_ok_deleted.
Qed.

Lemma text_payload_is_create id name msg now av :
  id ≠ "" → name ≠ "" → is_create (text_payload id name msg now av) = true.
Proof. intros Hi Hn. destruct id, name; done. Qed.

Lemma media_payload_is_create id type name url mime text now av :
  id ≠ "" → name ≠ "" → type ∈ ["image"; "video"; "audio"] →
  is_create (media_payload id type name url mime text now av) = true.
Proof.
  intros Hi Hn Ht. unfold is_create. simpl.
  rewrite bool_decide_eq_true_2 by (unfold kinds; by right).
  destruct id, name; done.
Qed.

Lemma store_ok_handle r st : store_ok st → admissible r st → store_ok (handle r st).
Proof.
  intros Hok Hadm. destruct r; simpl in *.
  - destruct Hadm as [Hf Hn].
    eapply store_ok_post; eauto.
    apply text_payload_is_create; [apply Hf | done].
  - destruct Hadm as (Hf & Hn & Ht).
    eapply store_ok_post; eauto.
    apply media_payload_is_create; [apply Hf | done | done].
  - by apply store_ok_delete.
  - apply store_ok_no_maps, Hok.
  - apply store_ok_no_maps. constructor.
Qed.

Lemma reachable_store_ok st : reachable st → store_ok st.
Proof.
  induction 1 as [|st r _ IH Hadm]; [apply store_ok_init|].
  by apply store_ok_handle.
Qed.

(** ** Tombstones are permanent *)

(** In a log grown by a working server, a tombstone of [X] comes after
    the Create of [X], and nothing but tombstones of [X] follows it under
    that id. *)
Lemma log_ok_tombstone_position l X :
  log_ok l → tombstoned l X →
  ∃ l1 d l2, l = l1 ++ Some d :: l2 ∧
    o_type d = Some "delete" ∧ o_id d = Some X ∧
    ∀ o, Some o ∈ l2 → o_id o = Some X → o_type o = Some "delete".
Proof.
  induction 1 as [|l c Hl IH Hc Hfresh|l d i Hl IH Ht Hi Hcr Hnt]; intros HX.
  - destruct HX as (d & Hin & _). by apply elem_of_nil in Hin.
  - apply tombstoned_snoc in HX as [HX|[HX _]];
      [|by apply is_create_not_delete in Hc].
    destruct (IH HX) as (l1 & d & l2 & -> & Ht & Hi & Hrest).
    exists l1, d, (l2 ++ [Some c]). split; [by rewrite <- app_assoc|].
    split; [done|]. split; [done|].
    intros o Ho HoX. apply elem_of_app in Ho as [Ho|Ho]; [by apply Hrest|].
    apply list_elem_of_singleton in Ho. simplify_eq.
    destruct (Hfresh d); [|congruence].
    apply elem_of_app. right. left.
  - destruct (decide (i = X)) as [->|Hne].
    + exists l, d, []. split; [done|]. split; [done|]. split; [done|].
      intros o Ho. by apply elem_of_nil in Ho.
    + apply tombstoned_snoc in HX as [HX|[_ HX]]; [|congruence].
      destruct (IH HX) as (l1 & d' & l2 & -> & Ht' & Hi' & Hrest).
      exists l1, d', (l2 ++ [Some d]). split; [by rewrite <- app_assoc|].
      split; [done|]. split; [done|].
      intros o Ho HoX. apply elem_of_app in Ho as [Ho|Ho]; [by apply Hrest|].
      apply list_elem_of_singleton in Ho. by simplify_eq.
Qed.

(** A message whose tombstone follows every other record of its id is in
    no reconstruction, whatever the limit. *)
Lemma tombstone_hides (l1 l2 : list line) d X N m :
  o_type d = Some "delete" → o_id d = Some X →
  (∀ o, Some o ∈ l2 → o_id o = Some X → o_type o = Some "delete") →
  m ∈ readRecentMessages (Some (l1 ++ Some d :: l2)) N →
  o_id m ≠ Some X.
Proof.
  intros Ht Hi Hrest Hm HmX.
  apply elem_of_recent, elem_of_filtered in Hm as (Hin & Hnd & Htr & Hhas).
  unfold last_n in Hin.
  set (k := length (l1 ++ Some d :: l2) - scan_bound N) in Hin.
  destruct (decide (k ≤ length l1)) as [Hle|Hgt].
  - rewrite drop_app_le in Hin by done.
    unfold has in Hhas. rewrite HmX in Hhas.
    apply bool_decide_eq_false in Hhas. apply Hhas.
    apply elem_of_tomb_set. exists d. split; [|split; [|done]].
    + unfold last_n. fold k. rewrite drop_app_le by done.
      apply elem_of_app. right. left.
    + unfold is_delete, strict_eq. rewrite bool_decide_eq_true_2 by done.
      by rewrite Hi, <- HmX.
  - rewrite drop_app_ge in Hin by lia.
    destruct (k - length l1) as [|j] eqn:Ek; [lia|]. simpl in Hin.
    apply (subseteq_drop _ _ (Some m)) in Hin.
    pose proof (Hrest m Hin HmX) as Hmt.
    unfold is_delete, strict_eq in Hnd.
    by rewrite bool_decide_eq_true_2, Htr in Hnd.
Qed.

Lemma log_of_handle_grows r st X :
  r ≠ ReqClear → tombstoned (log_of st) X → tombstoned (log_of (handle r st)) X.
Proof.
  intros Hr HX. destruct r; simpl; try done.
  - rewrite log_of_post_message. apply tombstoned_snoc. by left.
  - rewrite log_of_post_message. apply tombstoned_snoc. by left.
  - unfold delete_message. destruct id as [id|]; [|done].
    repeat (case_match; try done);
      change (tombstoned (log_of st ++ [Some (tombstone id now me)]) X);
      apply tombstoned_snoc; by left.
Qed.

Lemma later_keeps st st' X :
  later st st' → store_ok st → tombstoned (log_of st) X →
  store_ok st' ∧ tombstoned (log_of st') X.
Proof.
  induction 1 as [|st st' r _ IH Hr Hadm]; intros Hok HX; [done|].
  destruct (IH Hok HX) as [Hok' HX']. split.
  - by apply store_ok_handle.
  - by apply log_of_handle_grows.
Qed.

(** C2: once [delete_message] has succeeded for an id [X], no later
    reconstruction contains a message with that id, for any limit (so for
    every limit from 1 to 1000) and after any further creates, deletes
    and restarts. *)
Theorem deleted_message_never_reappears st now X me st' o N m :
  reachable st →
  (delete_message reliable now (Some X) me st).2 = true →
  later (delete_message reliable now (Some X) me st).1 st' →
  m ∈ readRecentMessages (readFile o (messagesFile st')) N →
  o_id m ≠ Some X.
Proof.
  intros Hr Hack Hlater Hm.
  apply reachable_store_ok in Hr.
  destruct (delete_message_spec st now X me Hr) as [[Hmay Heq]|[_ Heq]];
    rewrite Heq in *; [|done]. simpl in *.
  assert (HX : tombstoned (log_of (deleted_state st X now me)) X).
  { change (tombstoned (log_of st ++ [Some (tombstone X now me)]) X).
    apply tombstoned_snoc. by right. }
  destruct (later_keeps _ _ X Hlater (store_ok_deleted _ _ now _ Hr Hmay) HX)
    as [[Hlog _ _] HX'].
  destruct (log_ok_tombstone_position _ _ Hlog HX')
    as (l1 & d & l2 & Hl & Ht & Hi & Hrest).
  unfold readFile in Hm. destruct (read_ok o); [|by apply elem_of_nil in Hm].
  unfold log_of in Hl. destruct (messagesFile st') as [l|];
    [|by apply elem_of_nil in Hm].
  simpl in Hl. subst l. by eapply tombstone_hides.
Qed.

(** ** A failing append *)

(** C3, as stated, fails: with an append that fails, alice's delete is
    acknowledged with [true] and her entry leaves the map, while the file
    still holds her Create and no tombstone. *)
Lemma failed_append_goes_unreported :
  let result :=
    delete_message (mkIo true false) 2 (Some "1-aa") "alice" alice_posted in
  result.2 = true ∧
  messages alice_posted !! Some "1-aa" ≠ None ∧
  messages result.1 !! Some "1-aa" = None ∧
  messagesFile result.1 = messagesFile alice_posted.
Proof. vm_compute. repeat split; done. Qed.

(** C3, amended: when the append fails, nothing tells the caller and the
    map is updated all the same. [rememberMessage] sets the entry and
    leaves the file as it was; [delete_message] acknowledges, updates the
    map and broadcasts exactly as with a working append, and leaves the
    file as it was. *)
Theorem failed_append_is_silent :
  (∀ r m st,
     let st' := rememberMessage (mkIo r false) m st in
     messages st' !! o_id m =
       Some (mkEntry (o_username m) (o_type m) (or_null (o_url m))) ∧
     messagesFile st' = messagesFile st ∧
     emitted (post_message (mkIo r false) m st) = emitted st ++ [EvMessage m]) ∧
  (∀ r now id me st,
     let failed := delete_message (mkIo r false) now id me st in
     let worked := delete_message (mkIo r true) now id me st in
     failed.2 = worked.2 ∧
     messages failed.1 = messages worked.1 ∧
     emitted failed.1 = emitted worked.1 ∧
     messagesFile failed.1 = messagesFile st).
Proof.
  split.
  - intros r m st. simpl. by rewrite lookup_insert_eq.
  - intros r now [id|] me st; [|done]. unfold delete_message, readFile. simpl.
    repeat (case_match; simplify_eq; try done).
Qed.

(** ** The tombstone set as a list *)

(** The reconstruction with the tombstone set read off the list of
    tombstone ids. *)
Lemma filtered_by_list (w : list line) :
  filtered w =
  let ids := omap tomb_id w in
  List.filter
    (λ m, negb match o_id m with
               | Some i => existsb (String.eqb i) ids
               | None => false
               end)
    (omap keep w).
Proof.
  rewrite filtered_eq. apply List.filter_ext. intros m. f_equal.
  unfold has, tomb_set. destruct (o_id m) as [i|]; [|done].
  apply eq_true_iff_eq.
  rewrite bool_decide_eq_true, elem_of_list_to_set, existsb_exists. split.
  - intros H. exists i. split; [by apply list_elem_of_In | apply String.eqb_refl].
  - intros (x & Hx & Hi). apply String.eqb_eq in Hi. subst.
    by apply list_elem_of_In.
Qed.

(** ** The theorems at concrete stores and logs *)

Lemma alice_posted_reachable : reachable alice_posted.
Proof.
  apply (reach_step init (ReqText "1-aa" "alice" "hi" 1 None) reach_init).
  split; [split; [done|]|done].
  intros o Ho. by apply elem_of_nil in Ho.
Qed.

Lemma deleted_message_never_reappears_witness :
  o_id (text_payload "3-bb" "bob" "yo" 3 None) ≠ Some "1-aa".
Proof.
  apply (deleted_message_never_reappears alice_posted 2 "1-aa" "alice"
           (handle (ReqText "3-bb" "bob" "yo" 3 None)
              (delete_message reliable 2 (Some "1-aa") "alice" alice_posted).1)
           reliable 10 (text_payload "3-bb" "bob" "yo" 3 None)
           alice_posted_reachable).
  - reflexivity.
  - apply later_step; [apply later_refl | done |].
    split; [split; [done|]|done].
    intros o Ho. vm_compute in Ho.
    repeat (apply elem_of_cons in Ho as [Ho|Ho]; [by simplify_eq|]).
    by apply elem_of_nil in Ho.
  - vm_compute. left.
Defined.

(** * Further properties of the store *)

(** ** The history endpoint *)

Lemma recent_length data limit :
  length (readRecentMessages data limit) ≤ Z.to_nat limit.
Proof.
  destruct data as [lines|]; [|simpl; lia].
  rewrite readRecentMessages_unfold, last_n_length. lia.
Qed.

(** X1: [GET /messages] never answers with more than 1000 messages, and
    never with more than the effective limit; [readRecentMessages]
    returns at most [limit] messages, none for a limit below 1. *)
Theorem history_is_bounded :
  (∀ q data, length (get_messages q data) ≤ 1000 ∧
             (Z.of_nat (length (get_messages q data)) ≤ effective_limit q)%Z) ∧
  (∀ data limit, length (readRecentMessages data limit) ≤ Z.to_nat limit) ∧
  (∀ data limit, (limit ≤ 0)%Z → readRecentMessages data limit = []).
Proof.
  split; [|split].
  - intros q data. unfold get_messages.
    pose proof (recent_length data (effective_limit q)).
    pose proof (effective_limit_range q). lia.
  - apply recent_length.
  - intros data limit Hl. apply length_zero_iff_nil.
    pose proof (recent_length data limit). lia.
Qed.

Lemma history_is_bounded_witness :
  readRecentMessages (Some (Some <$> scenario_d)) 0 = [].
Proof. apply (proj2 (proj2 history_is_bounded)). lia. Defined.

(** ** What a reconstruction contains *)

Lemma has_false_iff (w : list line) m :
  has (tomb_set w) (o_id m) = false ↔
  ∀ d, Some d ∈ w → is_delete d = true → o_id d ≠ o_id m.
Proof.
  split; [|apply not_tombstoned_has].
  unfold has. intros H d Hd Hdel Hid.
  destruct (o_id m) as [i|] eqn:Ei.
  - apply bool_decide_eq_false in H. apply H, elem_of_tomb_set. eauto.
  - unfold is_delete in Hdel. rewrite Hid in Hdel.
    by rewrite andb_false_r in Hdel.
Qed.

(** X2: a message is returned only if it is a line of the scanned
    suffix, has an id, is not a tombstone and no tombstone of the suffix
    names its id, wherever that tombstone stands; and every such line is
    returned when the limit is not below the number of survivors. *)
Theorem recent_membership (lines : list line) (N : Z) (m : jsobj) :
  let suffix := last_n (scan_bound N) lines in
  let visible :=
    Some m ∈ suffix ∧ is_delete m = false ∧ truthy (o_id m) = true ∧
    ∀ d, Some d ∈ suffix → is_delete d = true → o_id d ≠ o_id m in
  (m ∈ readRecentMessages (Some lines) N → visible) ∧
  (length (filtered suffix) ≤ Z.to_nat N →
   visible → m ∈ readRecentMessages (Some lines) N).
Proof.
  cbv zeta. split.
  - intros H. apply elem_of_recent, elem_of_filtered in H as (? & ? & ? & ?).
    by rewrite <- has_false_iff.
  - intros Hlen (Hin & Hnd & Ht & Hno).
    rewrite readRecentMessages_unfold.
    rewrite last_n_all by by rewrite sort_length.
    rewrite sort_perm. apply elem_of_filtered.
    by rewrite has_false_iff.
Qed.

Lemma recent_membership_witness :
  text_payload "2-cc" "carol" "hello" 2 None ∈
  readRecentMessages
    (Some [Some (tombstone "1-aa" 3 "alice");
           Some (text_payload "1-aa" "alice" "hi" 1 None);
           Some (text_payload "2-cc" "carol" "hello" 2 None)]) 5.
Proof.
  apply (proj2 (recent_membership
                  [Some (tombstone "1-aa" 3 "alice");
                   Some (text_payload "1-aa" "alice" "hi" 1 None);
                   Some (text_payload "2-cc" "carol" "hello" 2 None)] 5
                  (text_payload "2-cc" "carol" "hello" 2 None))).
  - vm_compute. lia.
  - split; [|split; [reflexivity|split; [reflexivity|]]].
    + vm_compute. right. right. left.
    + intros d Hd Hdel. vm_compute in Hd.
      repeat (apply elem_of_cons in Hd as [Hd|Hd]; [by simplify_eq|]).
      by apply elem_of_nil in Hd.
Defined.

(** X3: for limits up to 1000 the scanned suffix is the same, so a
    smaller limit returns the tail of what a larger limit returns. *)
Theorem smaller_limit_is_tail (data : read_result) (N N' : Z) :
  (0 ≤ N ≤ N')%Z → (N' ≤ 1000)%Z →
  readRecentMessages data N = last_n (Z.to_nat N) (readRecentMessages data N').
Proof.
  intros HN HN'. destruct data as [lines|]; [|done].
  rewrite !readRecentMessages_unfold.
  assert (scan_bound N = scan_bound N') as -> by (unfold scan_bound; lia).
  symmetry. apply last_n_last_n. lia.
Qed.

Lemma smaller_limit_is_tail_witness :
  readRecentMessages (Some (Some <$> scenario_d)) 1 =
  last_n 1 (readRecentMessages (Some (Some <$> scenario_d)) 3).
Proof. apply (smaller_limit_is_tail _ 1 3); lia. Defined.

(** A line that adds nothing to [tombstones] nor to [all]: one that does
    not parse, or an object without a truthy id. *)
Lemma ignored_line (x : line) :
  line_ignored x = true → tomb_id x = None ∧ keep x = None.
Proof.
  destruct x as [o|]; [|done]. simpl. intros H%negb_true_iff.
  unfold is_delete. rewrite H, andb_false_r. done.
Qed.

(** X4: lines that do not parse, and objects without id, are skipped:
    on a log that fits the scanned suffix the result is the same with
    and without such a line. *)
Theorem unparseable_lines_are_skipped (l1 l2 : list line) (x : line) (N : Z) :
  line_ignored x = true →
  length (l1 ++ x :: l2) ≤ scan_bound N →
  readRecentMessages (Some (l1 ++ x :: l2)) N =
  readRecentMessages (Some (l1 ++ l2)) N.
Proof.
  intros Hx Hlen. apply ignored_line in Hx as [Ht Hk].
  rewrite !readRecentMessages_unfold.
  rewrite !(last_n_all (scan_bound N)).
  - rewrite !filtered_eq. unfold tomb_set. rewrite !omap_app. csimpl.
    by rewrite Ht, Hk.
  - rewrite length_app in *. simpl in *. lia.
  - done.
Qed.

Lemma unparseable_lines_are_skipped_witness :
  readRecentMessages
    (Some ([Some (text_payload "1-aa" "alice" "hi" 1 None)] ++ None :: [])) 5 =
  readRecentMessages
    (Some ([Some (text_payload "1-aa" "alice" "hi" 1 None)] ++ [])) 5.
Proof.
  apply unparseable_lines_are_skipped; [reflexivity|]. vm_compute. lia.
Defined.

(** ** Reading and deleting agree *)

Lemma log_ok_records l o :
  log_ok l → Some o ∈ l → is_create o = true ∨ o_type o = Some "delete".
Proof.
  induction 1 as [|l c Hl IH Hc Hfresh|l d i Hl IH Ht Hi Hcr Hnt]; intros Hin.
  - by apply elem_of_nil in Hin.
  - apply elem_of_app in Hin as [Hin|Hin]; [by apply IH|].
    apply list_elem_of_singleton in Hin. simplify_eq. by left.
  - apply elem_of_app in Hin as [Hin|Hin]; [by apply IH|].
    apply list_elem_of_singleton in Hin. simplify_eq. by right.
Qed.

Lemma truthy_Some v : truthy v = true → ∃ s, v = Some s ∧ s ≠ "".
Proof. destruct v as [[|a s]|]; try done. intros _. by eexists. Qed.





(** ** The log only grows *)

Lemma handle_appends r st :
  r ≠ ReqClear →
  log_of (handle r st) = log_of st ∨ ∃ o, log_of (handle r st) = log_of st ++ [Some o].
Proof.
  intros Hr. destruct r; simpl; try done; try by left.
  - right. by eexists.
  - right. by eexists.
  - unfold delete_message. destruct id as [id|]; [|by left].
    repeat (case_match; try by left); right; by eexists.
Qed.

(** X7: apart from the administrative reset, no request rewrites the
    log: a request leaves it as it is or appends one record, and the log
    of an earlier store is a prefix of the log of every later one. *)
Theorem log_is_append_only :
  (∀ r st, r ≠ ReqClear →
     log_of st `prefix_of` log_of (handle r st) ∧
     length (log_of (handle r st)) ≤ S (length (log_of st))) ∧
  (∀ st st', later st st' → log_of st `prefix_of` log_of st').
Proof.
  assert (H1 : ∀ r st, r ≠ ReqClear →
     log_of st `prefix_of` log_of (handle r st) ∧
     length (log_of (handle r st)) ≤ S (length (log_of st))).
  { intros r st Hr. destruct (handle_appends r st Hr) as [->|[o ->]].
    - split; [done|lia].
    - split; [by apply prefix_app_r|]. rewrite length_app. simpl. lia. }
  split; [done|].
  induction 1 as [|st st' r _ IH Hr _]; [done|].
  etrans; [exact IH|]. by apply H1.
Qed.

Lemma log_is_append_only_witness :
  log_of alice_posted `prefix_of`
  log_of (handle (ReqDelete 2 (Some "1-aa") "alice") alice_posted).
Proof.
  apply (proj2 log_is_append_only).
  apply later_step; [apply later_refl|done|done].
Defined.

(** ** Ids in a reachable log *)

Lemma creates_of_snoc id l x :
  creates_of id (l ++ [x]) = creates_of id l ++ creates_of id [x].
Proof. apply List.filter_app. Qed.

Lemma deletes_of_snoc id l x :
  deletes_of id (l ++ [x]) = deletes_of id l ++ deletes_of id [x].
Proof. apply List.filter_app. Qed.

Lemma creates_of_absent id (l : list line) :
  (∀ o, Some o ∈ l → o_id o ≠ Some id) → creates_of id l = [].
Proof.
  induction l as [|[o|] l IH]; intros H; simpl; [done| |].
  - unfold strict_eq. rewrite bool_decide_eq_false_2 by (apply H; left).
    rewrite andb_false_r. apply IH. intros o' Ho'. apply H. by right.
  - apply IH. intros o' Ho'. apply H. by right.
Qed.

Lemma deletes_of_absent id (l : list line) :
  ¬ tombstoned l id → deletes_of id l = [].
Proof.
  induction l as [|[o|] l IH]; intros H; simpl; [done| |].
  - destruct (strict_eq (o_type o) "delete" && strict_eq (o_id o) id) eqn:E.
    + destruct H. exists o. unfold strict_eq in E.
      apply andb_prop in E as [?%bool_decide_eq_true ?%bool_decide_eq_true].
      split; [left|done].
    + apply IH. intros (d & Hd & ?). apply H. exists d. split; [by right|done].
  - apply IH. intros (d & Hd & ?). apply H. exists d. split; [by right|done].
Qed.

Lemma creates_of_present id u (l : list line) :
  created_by l id u → 1 ≤ length (creates_of id l).
Proof.
  intros (c & Hin & Hc & Hi & _).
  induction l as [|x l IH]; [by apply elem_of_nil in Hin|].
  apply elem_of_cons in Hin as [<-|Hin]; simpl.
  - unfold strict_eq. rewrite Hc, bool_decide_eq_true_2 by done. simpl. lia.
  - specialize (IH Hin). destruct x as [o|]; [|done].
    destruct (is_create o && strict_eq (o_id o) id); simpl; lia.
Qed.

Lemma log_ok_counts l id :
  log_ok l →
  length (creates_of id l) ≤ 1 ∧
  length (deletes_of id l) ≤ length (creates_of id l).
Proof.
  induction 1 as [|l c Hl IH Hc Hfresh|l d i Hl IH Ht Hi Hcr Hnt]; [simpl; lia| |].
  - rewrite creates_of_snoc, deletes_of_snoc, !length_app. simpl.
    assert (strict_eq (o_type c) "delete" = false) as ->.
    { apply bool_decide_eq_false_2. by apply is_create_not_delete. }
    rewrite Hc. simpl. unfold strict_eq.
    destruct (decide (o_id c = Some id)) as [Hid|Hid].
    + rewrite bool_decide_eq_true_2 by done. simpl.
      rewrite creates_of_absent by (intros o Ho; rewrite <- Hid; by apply Hfresh).
      rewrite deletes_of_absent; [simpl; lia|].
      intros (x & Hx & _ & Hxi). apply (Hfresh x Hx). congruence.
    + rewrite bool_decide_eq_false_2 by done. simpl. lia.
  - rewrite creates_of_snoc, deletes_of_snoc, !length_app. simpl.
    assert (is_create d = false) as ->.
    { destruct (is_create d) eqn:E; [|done]. by apply is_create_not_delete in E. }
    simpl. unfold strict_eq. rewrite (bool_decide_eq_true_2 _ Ht). simpl.
    destruct (decide (i = id)) as [->|Hid].
    + rewrite bool_decide_eq_true_2 by done. simpl.
      rewrite (deletes_of_absent _ _ Hnt). destruct Hcr as [u Hu].
      pose proof (creates_of_present _ _ _ Hu). simpl. lia.
    + rewrite bool_decide_eq_false_2 by congruence. simpl. lia.
Qed.

(** X8: in the log of a reachable store an id is carried by at most one
    Create line and by at most one Delete line, and by a Delete line
    only if it is carried by a Create line. *)
Theorem reachable_log_ids_unique st id :
  reachable st →
  length (creates_of id (log_of st)) ≤ 1 ∧
  length (deletes_of id (log_of st)) ≤ length (creates_of id (log_of st)).
Proof. intros Hr. apply log_ok_counts, reachable_store_ok, Hr. Qed.

Lemma reachable_log_ids_unique_witness :
  length (creates_of "1-aa" (log_of alice_posted)) ≤ 1 ∧
  length (deletes_of "1-aa" (log_of alice_posted)) ≤
    length (creates_of "1-aa" (log_of alice_posted)).
Proof. apply (reachable_log_ids_unique alice_posted "1-aa" alice_posted_reachable). Defined.

(** ** The map mirrors the log *)

Lemma mirrors_post m id st :
  mirrors st → is_create m = true → o_id m = Some id →
  mirrors (post_message reliable m st).
Proof.
  intros Hst Hc Hid i e. rewrite log_of_post_message. simpl. rewrite Hid.
  destruct (decide (i = id)) as [->|Hne].
  - rewrite lookup_insert_eq. intros [= <-]. exists m.
    split; [|done]. apply elem_of_app. right. left.
  - rewrite lookup_insert_ne by congruence. intros He.
    destruct (Hst i e He) as (c & Hin & Hrest). exists c.
    split; [|done]. apply elem_of_app. by left.
Qed.

Lemma mirrors_handle r st :
  store_ok st → mirrors st → admissible r st → mirrors (handle r st).
Proof.
  intros Hok Hst Hadm. destruct r; simpl in *.
  - destruct Hadm as [Hf Hn]. eapply mirrors_post; [done| |done].
    apply text_payload_is_create; [apply Hf|done].
  - destruct Hadm as (Hf & Hn & Ht). eapply mirrors_post; [done| |done].
    apply media_payload_is_create; [apply Hf|done|done].
  - destruct id as [id|]; [|done].
    destruct (delete_message_spec st now id me Hok) as [[Hm ->]|[_ ->]]; [|done].
    intros i e. simpl.
    change (log_of (deleted_state st id now me))
      with (log_of st ++ [Some (tombstone id now me)]).
    destruct (decide (i = id)) as [->|Hne].
    + by rewrite lookup_delete_eq.
    + rewrite lookup_delete_ne by congruence. intros He.
      destruct (Hst i e He) as (c & Hin & Hrest). exists c.
      split; [|done]. apply elem_of_app. by left.
  - intros i e He. simpl in He. by rewrite lookup_empty in He.
  - intros i e He. simpl in He. by rewrite lookup_empty in He.
Qed.

Lemma reachable_mirrors st : reachable st → mirrors st.
Proof.
  induction 1 as [|st r Hr IH Hadm].
  - intros i e He. simpl in He. by rewrite lookup_empty in He.
  - apply mirrors_handle; [by apply reachable_store_ok|done|done].
Qed.

(** X9: in a reachable store every entry of the [messages] map is the
    entry [rememberMessage] built (owner, type, url) from a Create line
    that is in the log under the same id, and that id has no tombstone;
    no entry is filed under [undefined]. *)
Theorem index_mirrors_log st :
  reachable st →
  messages st !! None = None ∧
  ∀ id e, messages st !! Some id = Some e →
    (∃ c, Some c ∈ log_of st ∧ is_create c = true ∧ o_id c = Some id ∧
          e = entry_of c) ∧
    ¬ tombstoned (log_of st) id.
Proof.
  intros Hr. pose proof (reachable_store_ok _ Hr) as [_ Hnone Hentry].
  split; [done|]. intros id e He. split.
  - by apply (reachable_mirrors st Hr).
  - by destruct (Hentry id e He) as (u & _ & _ & ?).
Qed.

Lemma index_mirrors_log_witness :
  messages alice_posted !! None = None ∧
  ∀ id e, messages alice_posted !! Some id = Some e →
    (∃ c, Some c ∈ log_of alice_posted ∧ is_create c = true ∧
          o_id c = Some id ∧ e = entry_of c) ∧
    ¬ tombstoned (log_of alice_posted) id.
Proof. apply (index_mirrors_log alice_posted alice_posted_reachable). Defined.

(** ** The administrative reset *)

(** X10: after [POST /admin/clear] the history is empty for every limit,
    every delete is acknowledged with [false] and changes nothing, and
    the only broadcast added is ["cleared"]. *)
Theorem clear_forgets_everything st :
  (∀ o N, readRecentMessages (readFile o (messagesFile (admin_clear st))) N = []) ∧
  (∀ o now id me,
     delete_message o now id me (admin_clear st) = (admin_clear st, false)) ∧
  messages (admin_clear st) = ∅ ∧
  emitted (admin_clear st) = emitted st ++ [EvCleared].
Proof.
  split; [|split; [|done]].
  - intros o N. unfold readFile. destruct (read_ok o); [|done].
    simpl messagesFile. by rewrite readRecentMessages_unfold.
  - intros o now [id|] me; [|done]. unfold delete_message, readFile. simpl.
    destruct (truthy (Some me)); [|done]. simpl. rewrite lookup_empty. simpl.
    by destruct (read_ok o).
Qed.

(** ** A log that cannot be read *)

(** X11: when the log cannot be read, a delete of an id that has no
    entry in the map is acknowledged with [false] and changes nothing,
    whoever asks; a delete of an id whose entry names the requester as
    owner does not read the log and is acknowledged with [true]. *)
Theorem unreadable_log_blocks_fallback_only st now id me a :
  (messages st !! Some id = None →
   delete_message (mkIo false a) now (Some id) me st = (st, false)) ∧
  (∀ e, messages st !! Some id = Some e → e_owner e = Some me → me ≠ "" →
   (delete_message (mkIo false a) now (Some id) me st).2 = true ∧
   messages (delete_message (mkIo false a) now (Some id) me st).1 !! Some id = None).
Proof.
  split.
  - intros Hmiss. unfold delete_message, readFile. rewrite Hmiss. simpl.
    by destruct (truthy (Some me)).
  - intros e He Ho Hme. unfold delete_message. rewrite He. simpl. rewrite Ho.
    assert (Htm : truthy (Some me) = true) by by destruct me.
    rewrite Htm. simpl. rewrite Htm. unfold strict_eq.
    rewrite bool_decide_eq_true_2 by done. simpl.
    split; [done|]. apply lookup_delete_eq.
Qed.

Lemma unreadable_log_blocks_fallback_only_witness :
  (delete_message (mkIo false true) 2 (Some "1-aa") "alice" alice_posted).2 = true ∧
  delete_message (mkIo false true) 2 (Some "1-aa") "alice" (restart alice_posted)
    = (restart alice_posted, false).
Proof.
  split.
  - apply (proj2 (unreadable_log_blocks_fallback_only alice_posted 2 "1-aa" "alice" true)
             (entry_of (text_payload "1-aa" "alice" "hi" 1 None)));
      [reflexivity|reflexivity|done].
  - apply (proj1 (unreadable_log_blocks_fallback_only
                    (restart alice_posted) 2 "1-aa" "alice" true)).
    reflexivity.
Defined.

(** ** The history of a reachable store *)

Lemma filter_sublist {A} (f : A → bool) l : List.filter f l `sublist_of` l.
Proof.
  induction l as [|x l IH]; simpl; [done|].
  destruct (f x); by constructor.
Qed.

Lemma kept_drop_sublist k (l : list line) :
  omap keep (drop k l) `sublist_of` omap keep l.
Proof.
  rewrite <- (take_drop k l) at 2. rewrite omap_app.
  by apply sublist_inserts_l.
Qed.

Lemma recent_submseteq (l : list line) N :
  readRecentMessages (Some l) N ⊆+ omap keep l.
Proof.
  rewrite readRecentMessages_unfold. unfold last_n at 1.
  etrans; [apply submseteq_drop|]. rewrite sort_perm, filtered_eq.
  apply sublist_submseteq. etrans; [apply filter_sublist|].
  apply kept_drop_sublist.
Qed.

Lemma log_ok_kept_ids l : log_ok l → NoDup (o_id <$> omap keep l).
Proof.
  induction 1 as [|l c Hl IH Hc Hfresh|l d i Hl IH Ht Hi Hcr Hnt].
  - constructor.
  - rewrite omap_app, fmap_app. csimpl.
    rewrite (is_create_is_delete _ Hc), (is_create_truthy_id _ Hc). csimpl.
    apply NoDup_app. split; [done|]. split; [|apply NoDup_singleton].
    intros x Hx Hx'. apply list_elem_of_singleton in Hx'. subst x.
    apply list_elem_of_fmap in Hx as (m & Hm & Hin).
    apply elem_of_kept in Hin as (Hin & _). by apply (Hfresh m Hin).
  - rewrite omap_app. csimpl.
    assert (is_delete d = true) as ->.
    { unfold is_delete, strict_eq. rewrite bool_decide_eq_true_2 by done.
      destruct Hcr as (u & c & _ & Hc & Hci & _).
      apply is_create_truthy_id in Hc. by rewrite Hi, <- Hci. }
    csimpl. by rewrite app_nil_r.
Qed.

(** X21: the history of a reachable store lists Create records only, and
    lists no id twice. *)
Theorem history_of_reachable_store st o N :
  reachable st →
  (∀ m, m ∈ readRecentMessages (readFile o (messagesFile st)) N →
        is_create m = true) ∧
  NoDup (o_id <$> readRecentMessages (readFile o (messagesFile st)) N).
Proof.
  intros Hr. apply reachable_store_ok in Hr. pose proof (ok_log _ Hr) as Hlog.
  unfold readFile. destruct (read_ok o); [|split; [by intros m ?%elem_of_nil|constructor]].
  unfold log_of in Hlog.
  destruct (messagesFile st) as [l|]; [|split; [by intros m ?%elem_of_nil|constructor]].
  simpl in Hlog. split.
  - intros m Hm.
    apply elem_of_recent, elem_of_filtered in Hm as (Hin & Hnd & Htr & _).
    unfold last_n in Hin. apply (subseteq_drop _ _ (Some m)) in Hin.
    destruct (log_ok_records l m Hlog Hin) as [?|Ht]; [done|].
    unfold is_delete, strict_eq in Hnd.
    by rewrite bool_decide_eq_true_2, Htr in Hnd.
  - pose proof (recent_submseteq l N) as Hsub.
    apply (fmap_submseteq o_id) in Hsub.
    apply submseteq_Permutation in Hsub as [k Hk].
    pose proof (log_ok_kept_ids l Hlog) as Hnd.
    rewrite Hk in Hnd. by apply NoDup_app in Hnd as [? _].
Qed.

Lemma history_of_reachable_store_witness :
  NoDup (o_id <$> readRecentMessages (readFile reliable (messagesFile alice_posted)) 10).
Proof.
  apply (history_of_reachable_store alice_posted reliable 10 alice_posted_reachable).
Defined.

(** * Properties of the socket and upload handlers *)

(** ** Strings *)

Lemma slice0_length n s : String.length (slice0 n s) ≤ n.
Proof.
  unfold slice0. revert s. induction n as [|n IH]; intros [|a s]; simpl; try lia.
  specialize (IH s). lia.
Qed.


Lemma slice0_head n a r : ∃ r', slice0 (S n) (String a r) = String a r'.
Proof. unfold slice0. simpl. by eexists. Qed.

Lemma trimStart_blank s : trimStart s = "" ↔ blank s = true.
Proof.
  induction s as [|a s IH]; simpl; [done|].
  destruct (is_white a); simpl; [done|]. split; intros; discriminate.
Qed.







Lemma truthy_nonempty s : truthy (Some s) = true ↔ s ≠ "".
Proof. by destruct s. Qed.

Lemma truthy_empty s : truthy (Some s) = false ↔ s = "".
Proof. by destruct s. Qed.

(** ** The message handler *)


Lemma startsWith_nonempty p a s : startsWith (String a p) s = true → s ≠ "".
Proof. by intros H ->. Qed.

Lemma build_payload_shape name av id now data p :
  build_payload name av id now data = Some p →
  o_id p = Some id ∧ o_username p = Some name ∧ o_timestamp p = Some now ∧
  o_avatarUrl p = Some (or_null av) ∧
  ((∃ msg, p = text_payload id name msg now av ∧ msg ≠ "") ∨
   (∃ type url mime text,
      p = media_payload id type name url mime text now av ∧
      type ∈ media_types ∧ startsWith "/uploads/" url = true ∧
      String.length text ≤ 300)) ∧
  (id ≠ "" → name ≠ "" → is_create p = true).
Proof.
  destruct data as [d|[type|] url mime text|]; simpl; try done.
  - destruct (truthy (Some (slice0 1000 (trim d)))) eqn:E; simpl; [|done].
    intros [= <-]. repeat split.
    + left. eexists. split; [done|]. by apply truthy_nonempty.
    + by apply text_payload_is_create.
  - case_bool_decide as Ht; [|done].
    destruct (startsWith "/uploads/" _) eqn:Eu; simpl; [|done].
    intros [= <-]. repeat split.
    + right. eexists _, _, _, _. split; [done|]. split; [done|]. split; [done|].
      destruct text; [apply slice0_length | simpl; lia].
    + intros Hi Hn. by apply media_payload_is_create.
Qed.

(** X13: every payload the handler builds has the issued id, the
    sender's name and the time stamp; it is a text payload, or a media
    payload of type image, video or audio whose url starts with
    [/uploads/] and whose caption has at most 300 characters. With a
    non-empty id and name it is a Create record. *)
Theorem payload_is_well_formed name av id now data p :
  build_payload name av id now data = Some p →
  o_id p = Some id ∧ o_username p = Some name ∧ o_timestamp p = Some now ∧
  o_avatarUrl p = Some (or_null av) ∧
  ((∃ msg, p = text_payload id name msg now av ∧ msg ≠ "") ∨
   (∃ type url mime text,
      p = media_payload id type name url mime text now av ∧
      type ∈ media_types ∧ startsWith "/uploads/" url = true ∧
      String.length text ≤ 300)) ∧
  (id ≠ "" → name ≠ "" → is_create p = true).
Proof. apply build_payload_shape. Qed.

Lemma payload_is_well_formed_witness :
  is_create
    (media_payload "9-ab" "image" "alice" "/uploads/a.png" (JString "image/png")
       "" 9 None) = true.
Proof.
  apply (payload_is_well_formed "alice" None "9-ab" 9
           (MsgObject (Some "image") (Some " /uploads/a.png ") (Some "image/png") None)
           _ eq_refl); done.
Defined.

Lemma sender_name_nonempty sock users : sender_name sock users ≠ "".
Proof.
  unfold sender_name. destruct (data_username sock) as [[|? ?]|]; try done;
    destruct (users !! socket_id sock) as [[|? ?]|]; done.
Qed.

(** X14: the message handler keeps the store reachable. Whatever the
    client sends and whoever the socket is, with an id fresh for the log
    the store after the handler is one the request machine reaches, so
    the invariants of reachable stores hold after it. *)
Theorem on_message_stays_reachable st id now data sock users :
  reachable st → fresh id st →
  reachable (on_message reliable id now data sock users st).
Proof.
  intros Hr Hf. unfold on_message.
  pose proof (sender_name_nonempty sock users) as Hn.
  destruct (build_payload _ _ _ _ _) as [p|] eqn:Ep; [|done].
  destruct (build_payload_shape _ _ _ _ _ _ Ep)
    as (_ & _ & _ & _ & [(msg & -> & _)|(ty & url & mime & text & -> & Ht & _)] & _).
  - by apply (reach_step st (ReqText id _ msg now _)).
  - by apply (reach_step st (ReqMedia id ty _ url mime text now _)).
Qed.

Lemma on_message_stays_reachable_witness :
  reachable
    (on_message reliable "1-aa" 1 (MsgString "  hi ")
       (mkSocket "s1" (Some "alice") None) ∅ init).
Proof.
  apply (on_message_stays_reachable init "1-aa" 1 (MsgString "  hi ")
           (mkSocket "s1" (Some "alice") None) ∅ reach_init).
  split; [done|]. intros o Ho. by apply elem_of_nil in Ho.
Defined.

(** ** Names and avatars *)

(** X15: the name ["join"] settles on is never empty and has at most 30
    characters, whatever the client sends; after the handler the socket
    posts under that name, and a socket always posts under some
    non-empty name. *)
Theorem joined_name_is_short_and_not_empty :
  (∀ raw sid, join_name raw sid ≠ "" ∧ String.length (join_name raw sid) ≤ 30) ∧
  (∀ raw stored sock users,
     sender_name (on_join raw stored sock users).1 (on_join raw stored sock users).2
       = join_name raw (socket_id sock)) ∧
  (∀ sock users, sender_name sock users ≠ "").
Proof.
  assert (H1 : ∀ raw sid, join_name raw sid ≠ "" ∧ String.length (join_name raw sid) ≤ 30).
  { intros raw sid. unfold join_name.
    set (name0 := match raw with
                  | JoinObject (Some n) _ => trim n
                  | JoinObject None _ => ""
                  | JoinString r => trim r
                  | JoinOther => ""
                  end).
    set (name := if negb (truthy (Some name0)) then _ else name0).
    assert (Hne : name ≠ "").
    { unfold name. destruct (truthy (Some name0)) eqn:E; simpl; [|done].
      by apply truthy_nonempty. }
    destruct (Nat.ltb_spec 30 (String.length name)) as [Hlt|Hle].
    - split; [|apply slice0_length].
      destruct name as [|a r]; [done|].
      by destruct (slice0_head 29 a r) as [r' ->].
    - done. }
  split; [done|]. split; [|apply sender_name_nonempty].
  intros raw stored sock users. unfold on_join, sender_name. simpl.
  destruct (H1 raw (socket_id sock)) as [Hne _].
  by destruct (join_name raw (socket_id sock)).
Qed.

Lemma startsWith_cons a p b s :
  startsWith (String a p) (String b s) = true ↔ a = b ∧ startsWith p s = true.
Proof.
  unfold startsWith. simpl. destruct (ascii_dec a b) as [->|Hne]; [tauto|].
  split; [done|]. by intros [? _].
Qed.

Lemma startsWith_nil s : startsWith "" s = true.
Proof. by destruct s. Qed.

Lemma startsWith_trimEnd p s :
  blank_free p = true → startsWith p s = true → startsWith p (trimEnd s) = true.
Proof.
  revert p. induction s as [|b s IH]; intros [|a p] Hp H; try done.
  - apply startsWith_nil.
  - apply startsWith_cons in H as [-> H]. simpl in Hp.
    apply andb_prop in Hp as [Hb%negb_true_iff Hp].
    specialize (IH p Hp H). simpl. rewrite Hb.
    destruct (trimEnd s); apply startsWith_cons; split; try done.
Qed.

Lemma startsWith_trim p a s :
  is_white a = false → blank_free (String a p) = true →
  startsWith (String a p) s = true → startsWith (String a p) (trim s) = true.
Proof.
  intros Ha Hp H. unfold trim.
  assert (trimStart s = s) as ->.
  { destruct s as [|b s]; [done|]. apply startsWith_cons in H as [<- _].
    simpl. by rewrite Ha. }
  by apply startsWith_trimEnd.
Qed.

(** X16: an avatar url that comes from a client is taken only when it
    starts with [/uploads/], and what is kept still starts with it:
    ["update_avatar"] leaves the socket's avatar alone or sets it to such
    a url, and the avatar ["join"] settles on is such a url or the one
    stored in the preferences. *)
Theorem client_avatar_is_under_uploads :
  (∀ url sock,
     data_avatarUrl (update_avatar url sock) = data_avatarUrl sock ∨
     ∃ u, data_avatarUrl (update_avatar url sock) = Some u ∧
          startsWith "/uploads/" u = true) ∧
  (∀ raw stored,
     match join_avatar raw stored with
     | Some u => startsWith "/uploads/" u = true ∨ stored = Some u
     | None => True
     end).
Proof.
  split.
  - intros [u|] sock; simpl; [|by left].
    destruct (startsWith "/uploads/" u) eqn:E; [|by left].
    right. eexists. split; [done|]. by apply startsWith_trim.
  - intros raw stored. unfold join_avatar.
    destruct raw as [n [u|]|r|]; simpl.
    + destruct (startsWith "/uploads/" (trim u)) eqn:E.
      * assert (truthy (Some (trim u)) = true) as ->.
        { apply truthy_nonempty. by eapply startsWith_nonempty. }
        simpl. by left.
      * simpl. destruct (truthy stored); simpl; [|done].
        destruct stored; [by right|done].
    + destruct (truthy stored); simpl; [|done]. destruct stored; [by right|done].
    + destruct (truthy stored); simpl; [|done]. destruct stored; [by right|done].
    + destruct (truthy stored); simpl; [|done]. destruct stored; [by right|done].
Qed.

(** ** Uploads *)

(** X17: for a file the multer filter accepts (an image, video or audio
    mime type) the extension of the stored file is one of thirteen fixed
    extensions and is decided by the mime type alone: neither the
    original file name nor [path.extname] is consulted. For every file
    the extension is not empty. *)
Theorem accepted_upload_gets_known_extension :
  (∀ extname mimetype originalname,
     fileFilter mimetype = true →
     upload_ext extname mimetype originalname ∈ known_exts ∧
     ∀ extname' originalname',
       upload_ext extname' mimetype originalname' =
       upload_ext extname mimetype originalname) ∧
  (∀ extname mimetype originalname,
     upload_ext extname mimetype originalname ≠ "").
Proof.
  split.
  - intros extname m orig Hf.
    assert (Hm : truthy (Some m) = true).
    { destruct m; [done|]. done. }
    assert (Hext : ∀ en, extFromMime en (Some m) ∈ known_exts ∧
                         extFromMime en (Some m) = extFromMime extname (Some m)).
    { intros en. unfold extFromMime. rewrite Hm. simpl. unfold fileFilter in Hf.
      unfold known_exts.
      repeat (case_match; try done);
        try (split; [|done];
             repeat (first [apply list_elem_of_here | apply list_elem_of_further])). }
    assert (Hup : ∀ en o, upload_ext en m o = extFromMime en (Some m)).
    { intros en o. unfold upload_ext.
      destruct (Hext en) as [Hin _].
      assert (truthy (Some (extFromMime en (Some m))) = true) as ->; [|done].
      apply truthy_nonempty. intros He. rewrite He in Hin.
      unfold known_exts in Hin.
      repeat (apply elem_of_cons in Hin as [Hin|Hin]; [discriminate|]).
      by apply elem_of_nil in Hin. }
    split.
    + rewrite Hup. apply Hext.
    + intros en' o'. rewrite !Hup. apply Hext.
  - intros extname m orig. unfold upload_ext.
    destruct (truthy (Some (extFromMime extname (Some m)))) eqn:E1;
      [by apply truthy_nonempty|].
    destruct (truthy (Some (extname orig))) eqn:E2;
      [by apply truthy_nonempty|done].
Qed.

Lemma accepted_upload_gets_known_extension_witness :
  upload_ext (λ _, ".exe") "image/svg+xml" "x.exe" ∈ known_exts.
Proof.
  apply (proj1 accepted_upload_gets_known_extension (λ _, ".exe")
           "image/svg+xml" "x.exe").
  reflexivity.
Defined.

(** ** The ownership lookup on a reachable log *)

(** X18: on the log of a reachable store [lookupMessageOwner] reports
    [deleted] exactly for the ids that have a tombstone, and reports an
    owner [u] exactly for the ids that [u] created and that have no
    tombstone. *)
Theorem lookup_agrees_with_log st id :
  reachable st →
  let info := lookupMessageOwner (messagesFile st) id in
  (info_deleted info = true ↔ tombstoned (log_of st) id) ∧
  (∀ u, info_owner info = Some u ↔
        created_by (log_of st) id u ∧ ¬ tombstoned (log_of st) id).
Proof.
  intros Hr. apply reachable_store_ok in Hr. pose proof (ok_log _ Hr) as Hlog.
  pose proof (log_ok_scan (log_of st) id Hlog) as Hscan.
  assert (Hlook : lookupMessageOwner (messagesFile st) id =
                  scan_back id (rev (log_of st))).
  { unfold log_of. by destruct (messagesFile st). }
  cbv zeta. rewrite Hlook.
  destruct (scan_back id (rev (log_of st))) as [ow d]. simpl in *.
  destruct d.
  - destruct Hscan as [Ht ->]. split; [done|].
    intros u. split; [done|]. by intros [_ ?].
  - destruct Hscan as [Hnt Ho]. split; [done|].
    intros u. destruct ow as [u'|].
    + split.
      * by intros [= ->].
      * intros [Hc _]. f_equal.
        by apply (log_ok_creator_unique (log_of st) id).
    + split; [done|]. intros [Hc _]. by destruct (Ho u).
Qed.

Lemma lookup_agrees_with_log_witness :
  info_owner (lookupMessageOwner (messagesFile alice_posted) "1-aa") = Some "alice" ↔
  created_by (log_of alice_posted) "1-aa" "alice" ∧
  ¬ tombstoned (log_of alice_posted) "1-aa".
Proof.
  apply (proj2 (lookup_agrees_with_log alice_posted "1-aa" alice_posted_reachable)).
Defined.

(** ** Identifiers *)

Lemma decimal_dash_split d1 d2 s1 s2 :
  DecimalString.NilEmpty.string_of_uint d1 +:+ "-" +:+ s1 =
  DecimalString.NilEmpty.string_of_uint d2 +:+ "-" +:+ s2 →
  d1 = d2 ∧ s1 = s2.
Proof.
  revert d2. induction d1 as [|d1 IH|d1 IH|d1 IH|d1 IH|d1 IH|d1 IH|d1 IH|d1 IH|d1 IH|d1 IH];
    intros [|d2|d2|d2|d2|d2|d2|d2|d2|d2|d2]; simpl; try discriminate;
    intros [= H]; try done;
    by destruct (IH _ H) as [-> ->].
Qed.

(** X19: two identifiers are equal only if they were built from the same
    time and the same random hex string; an identifier is never empty. *)
Theorem newId_is_injective :
  (∀ now hex now' hex',
     newId now hex = newId now' hex' → now = now' ∧ hex = hex') ∧
  (∀ now hex, newId now hex ≠ "").
Proof.
  split.
  - intros n h n' h' H. unfold newId, decimal in H.
    apply decimal_dash_split in H as [Hd ->].
    split; [|done]. by apply DecimalN.Unsigned.to_uint_inj.
  - intros n h. unfold newId, decimal.
    destruct (DecimalString.NilEmpty.string_of_uint (N.to_uint n)); done.
Qed.

Lemma newId_is_injective_witness :
  (1730000000000%N = 1730000000000%N) ∧ "a1b2c3d4" = "a1b2c3d4".
Proof.
  apply (proj1 newId_is_injective 1730000000000%N "a1b2c3d4"
           1730000000000%N "a1b2c3d4").
  reflexivity.
Defined.

(** ** From an upload to a message *)

Lemma startsWith_app p s : startsWith p (p +:+ s) = true.
Proof.
  induction p as [|a p IH]; simpl; [apply startsWith_nil|].
  apply startsWith_cons. by split.
Qed.

(** X20: the url that [POST /upload] answers with is always accepted by
    the message handler: sent back as the url of an image, video or
    audio message it yields a media payload, whose url is that url
    without trailing white space. *)
Theorem uploaded_url_is_accepted name av id now type filename mime text :
  type ∈ media_types →
  ∃ p, build_payload name av id now
         (MsgObject (Some type) (Some (upload_url filename)) mime text) = Some p ∧
       o_type p = Some type ∧
       o_url p = Some (trim (upload_url filename)) ∧
       startsWith "/uploads/" (trim (upload_url filename)) = true.
Proof.
  intros Ht.
  assert (Hs : startsWith "/uploads/" (trim (upload_url filename)) = true).
  { apply startsWith_trim; [done|done|]. apply startsWith_app. }
  simpl. rewrite bool_decide_eq_true_2 by done. rewrite Hs. simpl.
  eexists. split; [done|]. done.
Qed.

Lemma uploaded_url_is_accepted_witness :
  ∃ p, build_payload "alice" None "9-ab" 9
         (MsgObject (Some "video") (Some (upload_url "1-ab.mp4")) None None) = Some p ∧
       o_type p = Some "video" ∧
       o_url p = Some (trim (upload_url "1-ab.mp4")) ∧
       startsWith "/uploads/" (trim (upload_url "1-ab.mp4")) = true.
Proof.
  apply uploaded_url_is_accepted. right. left.
Defined.

(** * The ownership lookup, the reconstruction and the delete handler,
      stated on the fields of the records *)

(** ** Which record decides the lookup *)

Lemma scan_back_undecided id (rl1 rl2 : list line) :
  (∀ o, Some o ∈ rl1 → ¬ decides id o) →
  scan_back id (rl1 ++ rl2) = scan_back id rl2.
Proof.
  induction rl1 as [|[o|] rl1 IH]; intros Hno; simpl; [done| |].
  - assert (Ho : ¬ decides id o) by (apply Hno; left).
    assert (IH' : scan_back id (rl1 ++ rl2) = scan_back id rl2).
    { apply IH. intros o' Ho'. apply Hno. by right. }
    unfold strict_eq.
    destruct (decide (o_id o = Some id)) as [Hid|Hid].
    + rewrite (bool_decide_eq_true_2 _ Hid). rewrite !andb_true_r. simpl.
      rewrite bool_decide_eq_false_2 by (intros Ht; apply Ho; split; [done|by left]).
      destruct (truthy (o_username o)) eqn:Eu; [|done].
      destruct Ho. split; [done|]. right.
      destruct (o_username o) as [[|a u]|]; try done. by eexists.
    + rewrite (bool_decide_eq_false_2 _ Hid). by rewrite !andb_false_r.
  - apply IH. intros o' Ho'. apply Hno. by right.
Qed.

Lemma scan_back_named id o u rest :
  o_type o ≠ Some "delete" → o_id o = Some id → o_username o = Some u → u ≠ "" →
  scan_back id (Some o :: rest) = mkInfo (Some u) false.
Proof.
  intros Ht Hi Hu Hne. simpl. unfold strict_eq.
  rewrite (bool_decide_eq_false_2 _ Ht), (bool_decide_eq_true_2 _ Hi), Hu.
  simpl. by destruct u.
Qed.

(** C5, as stated, fails on a record that carries the id but has an
    empty username: it is the most recent record of the id and not a
    Delete, yet the lookup passes it over, and answers with the owner of
    an older record, or with no owner at all when it is the only one. *)
Lemma nameless_record_does_not_decide :
  o_id nameless_create = Some "1-aa" ∧
  o_type nameless_create = Some "text" ∧
  o_username nameless_create = Some "" ∧
  lookupMessageOwner
    (Some [Some (text_payload "1-aa" "alice" "hi" 1 None); Some nameless_create])
    "1-aa" = mkInfo (Some "alice") false ∧
  lookupMessageOwner (Some [Some nameless_create]) "1-aa" = mkInfo None false.
Proof. repeat split. Qed.

(** C5, amended: [lookupMessageOwner] scans from the most recent record
    backward and lets the first record decide that carries the id and is
    a Delete or has a non-empty username: a Delete gives
    [{ deleted: true }], any other such record gives its username with
    [deleted: false]. Records of the id that are no Delete and have no
    username or an empty one are passed over, like lines that do not
    parse. When no record decides, or the file cannot be read, the
    answer is [{ owner: null, deleted: false }]. *)
Theorem lookup_most_recent_record_decides (lines : list line) (id : string) :
  (∀ older o newer,
     lines = older ++ Some o :: newer →
     o_id o = Some id →
     (∀ o', Some o' ∈ newer → ¬ decides id o') →
     (o_type o = Some "delete" →
        lookupMessageOwner (Some lines) id = mkInfo None true) ∧
     (∀ u, o_type o ≠ Some "delete" → o_username o = Some u → u ≠ "" →
        lookupMessageOwner (Some lines) id = mkInfo (Some u) false)) ∧
  ((∀ o, Some o ∈ lines → ¬ decides id o) →
     lookupMessageOwner (Some lines) id = mkInfo None false) ∧
  lookupMessageOwner None id = mkInfo None false.
Proof.
  split; [|split; [|done]].
  - intros older o newer -> Hid Hnewer. simpl.
    rewrite rev_app_distr. simpl. rewrite <- app_assoc. simpl.
    rewrite scan_back_undecided.
    + split.
      * intros Ht. by apply scan_back_delete.
      * intros u Ht Hu Hne. by apply scan_back_named.
    + intros o' Ho'. apply Hnewer.
      apply list_elem_of_In. apply in_rev. by apply list_elem_of_In.
  - intros Hno. simpl.
    rewrite <- (app_nil_r (rev lines)). rewrite scan_back_undecided; [done|].
    intros o' Ho'. apply Hno.
    apply list_elem_of_In. apply in_rev. by apply list_elem_of_In.
Qed.

(** The lookup at a log where the deciding Create is followed by a
    nameless record of the same id and by another user's message. *)
Lemma lookup_most_recent_record_decides_witness :
  lookupMessageOwner
    (Some ([Some (tombstone "0-zz" 0 "zoe")] ++
           Some (text_payload "1-aa" "alice" "hi" 1 None) ::
           [Some nameless_create; Some (text_payload "3-bb" "bob" "yo" 3 None)]))
    "1-aa" = mkInfo (Some "alice") false.
Proof.
  apply (proj1 (lookup_most_recent_record_decides
                  ([Some (tombstone "0-zz" 0 "zoe")] ++
                   Some (text_payload "1-aa" "alice" "hi" 1 None) ::
                   [Some nameless_create; Some (text_payload "3-bb" "bob" "yo" 3 None)])
                  "1-aa")
           [Some (tombstone "0-zz" 0 "zoe")]
           (text_payload "1-aa" "alice" "hi" 1 None)
           [Some nameless_create; Some (text_payload "3-bb" "bob" "yo" 3 None)]
           eq_refl eq_refl).
  - intros o' Ho' [Hid Hd].
    apply elem_of_cons in Ho' as [Ho'|Ho'].
    + simplify_eq. destruct Hd as [?|(u & [= <-] & ?)]; done.
    + apply list_elem_of_singleton in Ho'. by simplify_eq.
  - done.
  - reflexivity.
  - done.
Defined.

(** ** The reconstruction, record by record *)

Lemma is_delete_record o : is_delete o = true ↔ Delete_record o.
Proof.
  unfold is_delete, strict_eq, Delete_record, carries_id.
  rewrite andb_true_iff, bool_decide_eq_true. split.
  - intros [Ht Hi]. split; [done|]. by apply truthy_Some.
  - intros [Ht (i & -> & Hi)]. split; [done|]. by destruct i.
Qed.

Lemma keep_record o :
  keep (Some o) = if decide (Create_record o) then Some o else None.
Proof.
  simpl. destruct (is_delete o) eqn:Ed.
  - apply is_delete_record in Ed as [Ht _].
    rewrite decide_False; [done|]. by intros [? _].
  - destruct (truthy (o_id o)) eqn:Ei.
    + rewrite decide_True; [done|]. split.
      * intros Ht. unfold is_delete, strict_eq in Ed.
        by rewrite bool_decide_eq_true_2, Ei in Ed.
      * by apply truthy_Some.
    + rewrite decide_False; [done|]. intros [_ (i & Hi & Hne)].
      rewrite Hi in Ei. by destruct i.
Qed.

Lemma kept_records (w : list line) :
  omap keep w = filter Create_record (records w).
Proof.
  unfold records. induction w as [|[o|] w IH]; csimpl; [done| |done].
  rewrite filter_cons.
  change (if is_delete o then None else if truthy (o_id o) then Some o else None)
    with (keep (Some o)).
  rewrite keep_record. destruct (decide (Create_record o)); csimpl; by rewrite IH.
Qed.

Lemma has_tombstone (w : list line) o :
  has (tomb_set w) (o_id o) = true ↔ Exists (names_id_of o) w.
Proof.
  rewrite Exists_exists. unfold has. destruct (o_id o) as [i|] eqn:Ei.
  - rewrite bool_decide_eq_true, elem_of_tomb_set. split.
    + intros (d & Hin & Hd & Hi). exists (Some d). split; [done|]. simpl.
      split; [by apply is_delete_record | congruence].
    + intros ([d|] & Hin & Hd); [|done]. destruct Hd as [Hd Hi].
      exists d. split; [done|]. split; [by apply is_delete_record | congruence].
  - split; [done|]. intros ([d|] & Hin & Hd); [|done].
    destruct Hd as [[_ (i & Hi & _)] Hn]. congruence.
Qed.

Lemma list_filter_bool {A} (f : A → bool) (P : A → Prop) `{!∀ x, Decision (P x)} l :
  (∀ x, f x = true ↔ P x) → List.filter f l = filter P l.
Proof.
  intros Hf. induction l as [|x l IH]; [done|]. simpl. rewrite filter_cons.
  destruct (f x) eqn:E.
  - rewrite decide_True by by apply Hf. by rewrite IH.
  - rewrite decide_False; [done|]. intros HP%Hf. congruence.
Qed.

(** The survivors the loop and the filter of [readRecentMessages] leave
    are the Create records of the slice that no Delete record of the
    slice names. *)
Lemma filtered_survivors (w : list line) : filtered w = survivors w.
Proof.
  rewrite filtered_eq, kept_records. unfold survivors.
  rewrite (list_filter_bool _ (λ o, ¬ Exists (names_id_of o) w)).
  - rewrite list_filter_filter. apply list_filter_iff. unfold survivor. tauto.
  - intros o. rewrite negb_true_iff, <- has_tombstone.
    by destruct (has (tomb_set w) (o_id o)).
Qed.

(** C6: [readRecentMessages] looks only at the last
    [max(limit * 5, 5000)] lines of the log. Of that suffix it keeps the
    Create records whose id no Delete record of the suffix names: the
    result is in ascending timestamp order, an earlier entry never
    carrying a larger timestamp than a later one, and consists of the
    newest [limit] of them (all of them when there are fewer). *)
Theorem recent_scans_bounded_suffix (lines : list line) (limit : Z) :
  let suffix := last_n (scan_bound limit) lines in
  let result := readRecentMessages (Some lines) limit in
  Z.of_nat (scan_bound limit) = Z.max (limit * 5) 5000 ∧
  (∃ skipped, lines = skipped ++ suffix) ∧
  length suffix = min (scan_bound limit) (length lines) ∧
  result = readRecentMessages (Some suffix) limit ∧
  StronglySorted le_ts result ∧
  (∀ i j a b ta tb,
     i < j → result !! i = Some a → result !! j = Some b →
     o_timestamp a = Some ta → o_timestamp b = Some tb → (ta ≤ tb)%Z) ∧
  length result = min (Z.to_nat limit) (length (survivors suffix)) ∧
  ∃ older, older ++ result ≡ₚ survivors suffix ∧
           ∀ a b, a ∈ older → b ∈ result → le_ts a b.
Proof.
  cbv zeta. split; [unfold scan_bound; lia|]. split; [|split; [|split]].
  - exists (take (length lines - scan_bound limit) lines).
    unfold last_n. by rewrite take_drop.
  - apply last_n_length.
  - rewrite !readRecentMessages_unfold. by rewrite last_n_last_n.
  - rewrite readRecentMessages_unfold, filtered_survivors.
    set (live := survivors _).
    assert (Hs : StronglySorted le_ts (last_n (Z.to_nat limit) (sort live)))
      by apply last_n_strongly_sorted, sort_sorted.
    split; [done|]. split; [|split].
    + intros i j a b ta tb Hij Ha Hb Hta Htb.
      rewrite <- (take_drop j (last_n _ _)) in Hs.
      assert (Hab : le_ts a b).
      { eapply (StronglySorted_app_1_elem_of le_ts); [exact Hs| |].
        - apply (list_elem_of_lookup_2 _ i). by rewrite lookup_take_lt.
        - apply (list_elem_of_lookup_2 _ 0). rewrite lookup_drop.
          by rewrite Nat.add_0_r. }
      unfold le_ts, ts_or_zero in Hab. by rewrite Hta, Htb in Hab.
    + by rewrite last_n_length, sort_length.
    + exists (take (length (sort live) - Z.to_nat limit) (sort live)).
      unfold last_n. split.
      * rewrite take_drop. apply sort_perm.
      * intros a b Ha Hb.
        eapply (StronglySorted_app_1_elem_of le_ts); [|exact Ha|exact Hb].
        rewrite take_drop. apply sort_sorted.
Qed.

(** The reconstruction of a log with a tombstone ahead of its Create, a
    line that does not parse and timestamps out of order. *)
Lemma survivors_of_mixed_log :
  survivors
    [Some (tombstone "1-aa" 9 "alice");
     Some (text_payload "3-bb" "bob" "late" 30 None);
     None;
     Some (text_payload "1-aa" "alice" "hi" 10 None);
     Some (text_payload "2-cc" "carol" "early" 20 None)]
  = [text_payload "3-bb" "bob" "late" 30 None;
     text_payload "2-cc" "carol" "early" 20 None] ∧
  readRecentMessages
    (Some [Some (tombstone "1-aa" 9 "alice");
           Some (text_payload "3-bb" "bob" "late" 30 None);
           None;
           Some (text_payload "1-aa" "alice" "hi" 10 None);
           Some (text_payload "2-cc" "carol" "early" 20 None)]) 5
  = [text_payload "2-cc" "carol" "early" 20 None;
     text_payload "3-bb" "bob" "late" 30 None].
Proof. split; vm_compute; reflexivity. Qed.

(** ** The delete handler, read off the records of the log *)







(** ** Deleting twice, and a second tombstone in the log *)

Lemma last_n_app_ge {A} n (l1 l2 : list A) :
  n ≤ length l2 → last_n n (l1 ++ l2) = last_n n l2.
Proof.
  intros H. unfold last_n. rewrite length_app, drop_app_ge by lia.
  f_equal. lia.
Qed.

Lemma last_n_app_le {A} n (l1 l2 : list A) :
  length l2 ≤ n → last_n n (l1 ++ l2) = last_n (n - length l2) l1 ++ l2.
Proof.
  intros H. unfold last_n. rewrite length_app, drop_app_le by lia.
  do 2 f_equal. lia.
Qed.

Lemma keep_delete d X : Delete_of X d → keep (Some d) = None.
Proof.
  intros [Ht Hi]. simpl. unfold is_delete, strict_eq.
  rewrite bool_decide_eq_true_2 by done. simpl.
  by destruct (truthy (o_id d)).
Qed.

Lemma is_delete_fields d X : Delete_of X d → X ≠ "" → is_delete d = true.
Proof.
  intros [Ht Hi] HX. unfold is_delete, strict_eq.
  rewrite bool_decide_eq_true_2, Hi by done. by destruct X.
Qed.

(** One more Delete record of [X] changes nothing in a slice in which
    every record kept under the id [X] is tombstoned already. *)
Lemma filtered_extra_tombstone (w1 w3 : list line) d' X :
  Delete_of X d' →
  (∀ m, m ∈ omap keep (w1 ++ w3) → o_id m = Some X → X ∈ tomb_set (w1 ++ w3)) →
  filtered (w1 ++ Some d' :: w3) = filtered (w1 ++ w3).
Proof.
  intros Hd' Hcov. rewrite !filtered_eq.
  assert (Hk : omap keep (w1 ++ Some d' :: w3) = omap keep (w1 ++ w3)).
  { rewrite !omap_app. csimpl.
    change (if is_delete d' then None
            else if truthy (o_id d') then Some d' else None)
      with (keep (Some d')).
    by rewrite (keep_delete d' X). }
  rewrite Hk. apply List.filter_ext_in. intros m Hm%list_elem_of_In.
  f_equal. unfold has. destruct (o_id m) as [i|] eqn:Ei; [|done].
  apply bool_decide_ext. rewrite !elem_of_tomb_set. split.
  - intros (x & Hx & Hxd & Hxi).
    apply elem_of_app in Hx as [Hx|Hx].
    + exists x. split; [|done]. apply elem_of_app. by left.
    + apply elem_of_cons in Hx as [Hx|Hx].
      * simplify_eq. destruct Hd' as [_ Hi']. rewrite Hi' in Hxi.
        simplify_eq. apply elem_of_tomb_set. by apply (Hcov m).
      * exists x. split; [|done]. apply elem_of_app. by right.
  - intros (x & Hx & Hxd & Hxi). exists x. split; [|done].
    apply elem_of_app in Hx as [Hx|Hx]; apply elem_of_app; [by left|].
    right. by right.
Qed.

Lemma kept_id_nonempty (w : list line) m X :
  m ∈ omap keep w → o_id m = Some X → X ≠ "".
Proof.
  intros (_ & _ & Ht)%elem_of_kept Hi ->. by rewrite Hi in Ht.
Qed.

(** C4, as stated, fails in both parts. When the append of the first
    tombstone does not land, the second delete by the owner is
    acknowledged [true] too, and [message_deleted] is broadcast twice.
    And one more tombstone for a deleted message makes a log of 5000
    lines 5001 lines long: the scan starts one line later, and alice's
    first message leaves the history. *)
Lemma second_delete_can_show :
  (let first := delete_message (mkIo true false) 2 (Some "1-aa") "alice"
                  alice_posted in
   let second := delete_message reliable 3 (Some "1-aa") "alice" first.1 in
   first.2 = true ∧ second.2 = true ∧
   emitted second.1 =
     emitted alice_posted ++ [EvMessageDeleted "1-aa"; EvMessageDeleted "1-aa"]) ∧
  (length full_window_log = 5000 ∧
   last full_window_log = Some (Some (tombstone "7-xx" 8 "alice")) ∧
   Delete_of "7-xx" (tombstone "7-xx" 8 "alice") ∧
   Delete_of "7-xx" (tombstone "7-xx" 9 "alice") ∧
   o_id <$> readRecentMessages (Some full_window_log) 10 =
     [Some "1-aa"; Some "2-cc"] ∧
   o_id <$> readRecentMessages
              (Some (full_window_log ++ [Some (tombstone "7-xx" 9 "alice")])) 10 =
     [Some "2-cc"]).
Proof.
  split; [by repeat split|].
  split; [by vm_compute|]. split; [vm_compute; reflexivity|].
  split; [split; reflexivity|]. split; [split; reflexivity|].
  rewrite !readRecentMessages_unfold, !filtered_by_list.
  split; vm_compute; reflexivity.
Qed.

(** C4, amended. In a store reached by serving requests one after the
    other, every append having landed, a delete that was acknowledged
    [true] is followed by no second one: the next delete of the id by the
    same requester is acknowledged [false], appends no tombstone and
    broadcasts nothing. And a second Delete record [d'] of an id [X] in a
    log leaves [readRecentMessages] as it is without [d'] when the log
    with [d'] is no longer than the scanned suffix of
    [max(limit * 5, 5000)] lines, or when [d'] lies before that suffix.
    When [d'] lies inside the suffix of a longer log, and no record but
    Deletes carries [X] after the first tombstone, [d'] takes one line of
    the suffix: the result is that of the last [max(limit * 5, 5000) - 1]
    lines of the log without [d'], and no message with id [X] is in it. *)
Theorem second_delete_has_no_effect :
  (∀ st now now' id me,
     reachable st →
     (delete_message reliable now (Some id) me st).2 = true →
     let st1 := (delete_message reliable now (Some id) me st).1 in
     delete_message reliable now' (Some id) me st1 = (st1, false)) ∧
  (∀ (l1 l2 l3 : list line) d d' X N,
     Delete_of X d → Delete_of X d' →
     let with_dup := l1 ++ Some d :: l2 ++ Some d' :: l3 in
     let without := l1 ++ Some d :: l2 ++ l3 in
     (length with_dup ≤ scan_bound N ∨ scan_bound N ≤ length l3 →
      readRecentMessages (Some with_dup) N =
      readRecentMessages (Some without) N) ∧
     ((∀ o, Some o ∈ l2 ++ l3 → o_id o = Some X → o_type o = Some "delete") →
      (length l3 < scan_bound N →
       readRecentMessages (Some with_dup) N =
       readRecentMessages (Some (last_n (scan_bound N - 1) without)) N) ∧
      (∀ m, m ∈ readRecentMessages (Some with_dup) N → o_id m ≠ Some X))).
Proof.
  split.
  - intros st now now' id me Hr Hack. cbv zeta.
    apply reachable_store_ok in Hr.
    destruct (delete_message_spec st now id me Hr) as [[Hmay Heq]|[_ Heq]];
      rewrite Heq in *; [|done]. cbn [fst].
    destruct (delete_message_spec (deleted_state st id now me) now' id me
                (store_ok_deleted _ _ now _ Hr Hmay)) as [[[_ Hnt] _]|[_ ->]];
      [|done].
    destruct Hnt.
    change (tombstoned (log_of st ++ [Some (tombstone id now me)]) id).
    apply tombstoned_snoc. by right.
  - intros l1 l2 l3 d d' X N Hd Hd'. cbv zeta.
    assert (Ewith : l1 ++ Some d :: l2 ++ Some d' :: l3
                    = (l1 ++ Some d :: l2) ++ Some d' :: l3)
      by by rewrite <- app_assoc.
    assert (Ewithout : l1 ++ Some d :: l2 ++ l3 = (l1 ++ Some d :: l2) ++ l3)
      by by rewrite <- app_assoc.
    split; [|split].
    + intros [Hlen|Hlen]; rewrite !readRecentMessages_unfold.
      * rewrite Ewith in Hlen |- *. rewrite Ewithout.
        rewrite length_app in Hlen. cbn [length] in Hlen.
        rewrite !(last_n_all (scan_bound N)) by (rewrite length_app; cbn [length]; lia).
        rewrite (filtered_extra_tombstone _ _ d' X); [done|done|].
        intros m Hm Hi. apply elem_of_tomb_set. exists d.
        split; [apply elem_of_app; left; apply elem_of_app; right; left|].
        split; [|by destruct Hd].
        eapply is_delete_fields; [done|]. by eapply kept_id_nonempty.
      * rewrite Ewith, Ewithout.
        rewrite (last_n_app_ge _ _ (Some d' :: l3))
          by (cbn [length]; by apply le_S).
        rewrite (last_n_app_ge _ _ l3) by done.
        replace (Some d' :: l3) with ([Some d'] ++ l3) by done.
        by rewrite (last_n_app_ge _ [Some d'] l3).
    + intros Hlen. rewrite !readRecentMessages_unfold.
      rewrite (last_n_all (scan_bound N) (last_n _ _))
        by (rewrite last_n_length; lia).
      rewrite Ewith, Ewithout.
      rewrite (last_n_app_le _ _ (Some d' :: l3)) by (cbn [length]; apply Hlen).
      rewrite (last_n_app_le _ _ l3) by (unfold line in *; lia).
      replace (scan_bound N - length (Some d' :: l3))
        with (scan_bound N - 1 - length l3) by (unfold line; cbn [length]; lia).
      set (w1 := last_n _ (l1 ++ Some d :: l2)).
      rewrite (filtered_extra_tombstone _ _ d' X); [done|done|].
      intros m Hm Hi.
      assert (HX : X ≠ "") by by eapply kept_id_nonempty.
      subst w1. unfold last_n in *.
      set (k := length (l1 ++ Some d :: l2) - (scan_bound N - 1 - length l3)) in *.
      destruct (decide (k ≤ length l1)) as [Hle|Hgt].
      * rewrite drop_app_le by done. apply elem_of_tomb_set. exists d.
        split; [|split; [by eapply is_delete_fields | by destruct Hd]].
        apply elem_of_app. left. apply elem_of_app. right. left.
      * apply elem_of_kept in Hm as (Hin & Hnd & Htr). exfalso.
        assert (Hin' : Some m ∈ l2 ++ l3).
        { apply elem_of_app in Hin as [Hin|Hin]; apply elem_of_app;
            [left|by right].
          change (Some m ∈ drop k (l1 ++ Some d :: l2)) in Hin.
          rewrite drop_app_ge in Hin by lia.
          destruct (k - length l1) as [|j] eqn:Ej; [lia|]. simpl in Hin.
          by apply (subseteq_drop _ _ (Some m)) in Hin. }
        assert (Hm' : is_delete m = true).
        { apply (is_delete_fields m X); [|done]. split; [by apply H|done]. }
        congruence.
    + intros m Hm. destruct Hd as [Ht Hi].
      eapply (tombstone_hides l1 (l2 ++ Some d' :: l3) d X N m); try done.
      intros o Ho HoX. apply elem_of_app in Ho as [Ho|Ho].
      * apply H; [|done]. apply elem_of_app. by left.
      * apply elem_of_cons in Ho as [Ho|Ho]; [simplify_eq; by destruct Hd'|].
        apply H; [|done]. apply elem_of_app. by right.
Qed.

(** Alice deletes her message twice; and a log with two tombstones of
    her message, read with and without the second one. *)
Lemma second_delete_has_no_effect_witness :
  delete_message reliable 3 (Some "1-aa") "alice"
    (delete_message reliable 2 (Some "1-aa") "alice" alice_posted).1
  = ((delete_message reliable 2 (Some "1-aa") "alice" alice_posted).1, false) ∧
  readRecentMessages
    (Some ([Some (text_payload "1-aa" "alice" "hi" 1 None)] ++
           Some (tombstone "1-aa" 2 "alice") ::
           [Some (text_payload "3-bb" "bob" "yo" 3 None)] ++
           Some (tombstone "1-aa" 4 "alice") :: [])) 10
  = readRecentMessages
      (Some ([Some (text_payload "1-aa" "alice" "hi" 1 None)] ++
             Some (tombstone "1-aa" 2 "alice") ::
             [Some (text_payload "3-bb" "bob" "yo" 3 None)] ++ [])) 10 ∧
  readRecentMessages
    (Some ([Some (text_payload "1-aa" "alice" "hi" 1 None)] ++
           Some (tombstone "1-aa" 2 "alice") ::
           [Some (text_payload "3-bb" "bob" "yo" 3 None)] ++
           Some (tombstone "1-aa" 4 "alice") :: [])) 10
  = readRecentMessages
      (Some (last_n (scan_bound 10 - 1)
               ([Some (text_payload "1-aa" "alice" "hi" 1 None)] ++
                Some (tombstone "1-aa" 2 "alice") ::
                [Some (text_payload "3-bb" "bob" "yo" 3 None)] ++ []))) 10.
Proof.
  split; [|split].
  - apply (proj1 second_delete_has_no_effect alice_posted 2%Z 3%Z "1-aa" "alice"
             alice_posted_reachable).
    reflexivity.
  - apply (proj1 (proj2 second_delete_has_no_effect
                    [Some (text_payload "1-aa" "alice" "hi" 1 None)]
                    [Some (text_payload "3-bb" "bob" "yo" 3 None)] []
                    (tombstone "1-aa" 2 "alice") (tombstone "1-aa" 4 "alice")
                    "1-aa" 10%Z ltac:(done) ltac:(done))).
    left. vm_compute. lia.
  - apply (proj2 (proj2 second_delete_has_no_effect
                    [Some (text_payload "1-aa" "alice" "hi" 1 None)]
                    [Some (text_payload "3-bb" "bob" "yo" 3 None)] []
                    (tombstone "1-aa" 2 "alice") (tombstone "1-aa" 4 "alice")
                    "1-aa" 10%Z ltac:(done) ltac:(done))).
    + intros o Ho Hi. apply list_elem_of_singleton in Ho. by simplify_eq.
    + vm_compute. lia.
Defined.
